(** * VocalFlow: pitch detection, pitch classification and note matching

    A shallow embedding of [src/services/audioUtils.ts] and of the audio and
    game-loop parts of [src/App.tsx].

    Number models.  A JavaScript number is an IEEE-754 binary64 value, so the
    detector and the frame callback are embedded over Rocq's primitive floats
    ([PrimFloat], the same format with the same round-to-nearest operations):
    [NaN], the infinities and the comparisons behave as in the source and the
    definitions evaluate.  Reading an array out of range gives [undefined],
    embedded as [None].  Loop counters and array positions are integers and
    are kept in [Z].  [Math.log] is implementation-approximated in ECMAScript
    and is a parameter of the float model; the tuning error of a frame is
    studied on that model, through the specification of the binary64
    operations ([SpecFloat]).  The algebraic statement about the
    frequency/pitch-code mappings on the pitch codes is made in the module
    [Ideal], over the real numbers, where [Math.log] and [Math.pow] are
    [ln] and [Rpower].

    The second part of the file covers the rest of the application: the
    handlers of [src/App.tsx] and whole sessions, the renders at which the
    game-loop effect runs, the stages of the detector, the note names of
    [getNoteString], of the MusicXML parser and of the song generator, and
    the staff and the tuning display of [src/components].  Pitch codes,
    staff steps and pixel positions are integers there and are kept in
    [Z]. *)

From Stdlib Require Import String ZArith List Bool Lia Floats Uint63.
From Stdlib Require Import Reals Lra.
From Stdlib Require Import Ascii Decimal DecimalString DecimalZ DecimalPos.
Import ListNotations.

(* Decimal literals of the source (0.2, 0.01) denote the nearest binary64
   value, in JavaScript as here. *)
#[global] Set Warnings "-inexact-float".

(** ** JavaScript values used by the source *)

Module JS.
Local Open Scope float_scope.

(** An integer array position or length read as a number. *)
Definition Z2F (z : Z) : float :=
  if (z <? 0)%Z then - (of_uint63 (Uint63.of_Z (- z))) else of_uint63 (Uint63.of_Z z).

(** [arr[i]]: [None] is [undefined] (position out of range). *)
Definition get (arr : list float) (i : Z) : option float :=
  if (i <? 0)%Z then None else nth_error arr (Z.to_nat i).

(** ToNumber: [undefined] reads as [NaN] in arithmetic. *)
Definition num (v : option float) : float :=
  match v with Some x => x | None => nan end.

(** [a > b] on values that may be [undefined]: false as soon as one side is
    [undefined] (or [NaN]). *)
Definition gt (a b : option float) : bool :=
  match a, b with
  | Some x, Some y => y <? x
  | _, _ => false
  end.

(** ToBoolean of a number: [0], [-0] and [NaN] are falsy. *)
Definition truthy (x : float) : bool := negb (is_nan x || (x =? 0)).

Definition Math_abs (x : float) : float := PrimFloat.abs x.

(** [Math.max] of two numbers: [NaN] if one of them is, and [+0] above [-0]. *)
Definition Math_max (x y : float) : float :=
  if is_nan x || is_nan y then nan
  else if x <? y then y
  else if y <? x then x
  else if (x =? 0) && (1 / x <? 0) then y
  else x.

(** [Math.round]: the nearest integer, ties towards +Infinity; [NaN], the
    infinities and the zeros are returned as they are, and a result of zero
    keeps the sign of the argument. *)
Definition Math_round (x : float) : float :=
  match Prim2SF x with
  | S754_finite s m e =>
      if (0 <=? e)%Z then x
      else
        let sm := if s then Z.neg m else Z.pos m in
        let n := ((2 * sm + 2 ^ (- e)) / 2 ^ (- e + 1))%Z in
        if (n =? 0)%Z then (if s then (-0) else 0) else Z2F n
  | _ => x
  end.

(** [arr.slice(start, end)] with JavaScript's treatment of negative and
    out-of-range arguments. *)
Definition slice (arr : list float) (s e : Z) : list float :=
  let len := Z.of_nat (length arr) in
  let k := if (s <? 0)%Z then Z.max (len + s) 0 else Z.min s len in
  let final := if (e <? 0)%Z then Z.max (len + e) 0 else Z.min e len in
  firstn (Z.to_nat (final - k)) (skipn (Z.to_nat k) arr).

(** The integers [from, from + 1, ...], [n] of them. *)
Fixpoint count_from (n : nat) (from : Z) : list Z :=
  match n with
  | O => []
  | S k => from :: count_from k (from + 1)
  end.

(** The loop counters [from, from + 1, ...] below [to]. *)
Definition range (from to : Z) : list Z :=
  count_from (Z.to_nat (to - from)) from.

End JS.

(** ** src/services/audioUtils.ts: autoCorrelate *)

Module AudioUtils.
Import JS.
Local Open Scope float_scope.

(** Lines 21-27: the root-mean-square of the buffer. *)
Definition rms (buffer : list float) : float :=
  let SIZE := Z2F (Z.of_nat (length buffer)) in
  PrimFloat.sqrt (fold_left (fun acc val => acc + val * val) buffer 0 / SIZE).

Definition thres : float := 0.2.

(** The first loop counter of [counters] at which [p] holds ([break]). *)
Fixpoint first_index (p : Z -> bool) (counters : list Z) : option Z :=
  match counters with
  | [] => None
  | i :: rest => if p i then Some i else first_index p rest
  end.

(** The counters [i = from; i < SIZE / 2; i++].  [SIZE / 2] is a number
    division, so [i < SIZE / 2] is [2 * i < SIZE]. *)
Definition half_loop (from SIZE : Z) : list Z :=
  filter (fun i => (2 * i <? SIZE)%Z) (range from SIZE).

(** Lines 34 and 39-44. *)
Definition r1 (buffer : list float) : Z :=
  let SIZE := Z.of_nat (length buffer) in
  match first_index (fun i => Math_abs (num (get buffer i)) <? thres)
                    (half_loop 0 SIZE) with
  | Some i => i
  | None => 0%Z
  end.

(** Lines 35 and 45-50. *)
Definition r2 (buffer : list float) : Z :=
  let SIZE := Z.of_nat (length buffer) in
  match first_index (fun i => Math_abs (num (get buffer (SIZE - i))) <? thres)
                    (half_loop 1 SIZE) with
  | Some i => (SIZE - i)%Z
  | None => (SIZE - 1)%Z
  end.

(** Line 52. *)
Definition buf2 (buffer : list float) : list float :=
  slice buffer (r1 buffer) (r2 buffer).

(** Lines 55-59, one lag: [c[i] = sum_j buf2[j] * buf2[j + i]], summed in
    the order of [j]. *)
Definition acf_at (b : list float) (i : nat) : float :=
  fold_left (fun acc p => acc + fst p * snd p) (combine b (skipn i b)) 0.

(** Lines 53-59. *)
Definition acf (b : list float) : list float :=
  map (acf_at b) (seq 0 (length b)).

(** Lines 61-62: [while (c[d] > c[d + 1]) d++], with fuel; [None] when the
    fuel runs out before the loop condition fails. *)
Fixpoint decline (fuel : nat) (c : list float) (d : Z) : option Z :=
  match fuel with
  | O => None
  | S k => if gt (get c d) (get c (d + 1)) then decline k c (d + 1) else Some d
  end.

(** Lines 64-72: one iteration of the peak search on [(maxval, maxpos)]. *)
Definition peak_step (c : list float) (acc : float * Z) (i : Z) : float * Z :=
  if gt (get c i) (Some (fst acc)) then (num (get c i), i) else acc.

Definition peak (c : list float) (d : Z) : float * Z :=
  fold_left (peak_step c) (range d (Z.of_nat (length c))) (-1, (-1)%Z).

(** Lines 74-85: parabolic interpolation around [maxpos] and the result. *)
Definition interpolate (c : list float) (maxpos : Z) : float :=
  let T0 := Z2F maxpos in
  let x1 := num (get c (maxpos - 1)) in
  let x2 := num (get c maxpos) in
  let x3 := num (get c (maxpos + 1)) in
  let a := (x1 + x3 - 2 * x2) / 2 in
  let b := (x3 - x1) / 2 in
  if truthy a then T0 - b / (2 * a) else T0.

(** Lines 34-85, once the signal is loud enough. *)
Definition correlate (buffer : list float) (sampleRate : float) : option float :=
  let c := acf (buf2 buffer) in
  match decline (S (length c)) c 0 with
  | None => None
  | Some d => Some (sampleRate / interpolate c (snd (peak c d)))
  end.

(** Lines 19-86.  [None] is never returned (see [autoCorrelate_total]). *)
Definition autoCorrelate (buffer : list float) (sampleRate : float) : option float :=
  if rms buffer <? 0.01 then Some (-1) else correlate buffer sampleRate.

End AudioUtils.

(** ** src/types.ts *)

Module Types.

Inductive GameMode := EASY | HARD.

Record Note := {
  pitch : string;
  frequency : float;
  midi : float;
  duration : float;
  lyric : option string;
  id : string
}.

Record Song := {
  title : string;
  notes : list Note
}.

End Types.

(** ** src/App.tsx: the frame callback and the game loop *)

Module App.
Import JS Types.
Local Open Scope float_scope.

(** The audio analysis state (lines 19-21). *)
Record Audio := {
  currentFreq : float;
  centsOff : float;
  userMidi : option float
}.

(** The game state (lines 12-16) with the accumulated match time of
    [matchDurationRef] (line 33).  [matchDuration] starts at 0 and is only
    ever changed by [+ 16], [max(0, - 16)] and [= 0]: it holds small
    integers, on which binary64 arithmetic is exact, and is kept in [Z]. *)
Record Game := {
  song : option Song;
  currentIndex : Z;
  gameMode : GameMode;
  isListening : bool;
  completed : bool;
  matchDuration : Z
}.

Section DetectPitch.

(** [Math.log]. *)
Variable Math_log : float -> float.

(** Line 85. *)
Definition midiFloat (frequency : float) : float :=
  12 * (Math_log (frequency / 440) / Math_log 2) + 69.

(** Line 82: [frequency > 80 && frequency < 1200]. *)
Definition inVocalRange (frequency : float) : bool :=
  (80 <? frequency) && (frequency <? 1200).

(** Lines 81-95: what [detectPitch] does with the detector's result. *)
Definition detectPitch (frequency : float) (a : Audio) : Audio :=
  if inVocalRange frequency then
    let midiNote := Math_round (midiFloat frequency) in
    let cents := (midiFloat frequency - midiNote) * 100 in
    {| currentFreq := frequency; centsOff := cents; userMidi := Some midiNote |}
  else
    {| currentFreq := 0; centsOff := centsOff a; userMidi := None |}.

(** Lines 76-95: one animation frame on the captured [buffer]. *)
Definition frame (buffer : list float) (sampleRate : float) (a : Audio) : option Audio :=
  match AudioUtils.autoCorrelate buffer sampleRate with
  | Some frequency => Some (detectPitch frequency a)
  | None => None
  end.

End DetectPitch.

(** [song.notes[currentIndex]]. *)
Definition note_at (ns : list Note) (i : Z) : option Note :=
  if (i <? 0)%Z then None else nth_error ns (Z.to_nat i).

(** Line 115. *)
Definition tolerance (m : GameMode) : float :=
  match m with EASY => 50 | HARD => 25 end.

(** Line 126. *)
Definition requiredHoldTime (m : GameMode) : Z :=
  match m with EASY => 20%Z | HARD => 80%Z end.

(** Lines 112-118: [noteMatch && isTuneOkay]. *)
Definition onTarget (m : GameMode) (targetNote : Note) (um cents : float) : bool :=
  let noteMatch := um =? midi targetNote in
  let isTuneOkay := Math_abs cents <=? tolerance m in
  noteMatch && isTuneOkay.

(** Lines 118-122: the new value of [matchDurationRef.current]. *)
Definition accumulate (hit : bool) (held : Z) : Z :=
  if hit then (held + 16)%Z else Z.max 0 (held - 16).

(** Lines 128-137: advance to the next note, or complete the song and stop
    listening ([stopListening] sets [isListening] to false; its release of
    the audio resources is not part of the state). *)
Definition advance (s : Song) (held : Z) (g : Game) : Game :=
  if (held >? requiredHoldTime (gameMode g))%Z then
    if (currentIndex g <? Z.of_nat (length (notes s)) - 1)%Z then
      {| song := song g; currentIndex := (currentIndex g + 1)%Z;
         gameMode := gameMode g; isListening := isListening g;
         completed := completed g; matchDuration := 0%Z |}
    else
      {| song := song g; currentIndex := currentIndex g;
         gameMode := gameMode g; isListening := false;
         completed := true; matchDuration := 0%Z |}
  else
    {| song := song g; currentIndex := currentIndex g;
       gameMode := gameMode g; isListening := isListening g;
       completed := completed g; matchDuration := held |}.

(** Lines 101-139: one run of the game-loop effect. *)
Definition gameLoop (a : Audio) (g : Game) : Game :=
  match song g, userMidi a with
  | Some s, Some um =>
      if completed g || negb (isListening g) then g
      else
        match note_at (notes s) (currentIndex g) with
        | None => g
        | Some targetNote =>
            advance s
              (accumulate (onTarget (gameMode g) targetNote um (centsOff a))
                          (matchDuration g))
              g
        end
  | _, _ => g
  end.

(** Successive runs of the effect, one on each of the observations given.
    Which renders run the effect is the matter of [Scheduler], below. *)
Definition run (obs : list Audio) (g : Game) : Game :=
  fold_left (fun st a => gameLoop a st) obs g.

(** Lines 182-187.  [startListening] needs the microphone; [granted] tells
    whether it was obtained. *)
Definition restart (granted : bool) (g : Game) : Game :=
  {| song := song g; currentIndex := 0%Z; gameMode := gameMode g;
     isListening := isListening g || granted;
     completed := false; matchDuration := 0%Z |}.

End App.

(** ** The pitch mappings over the real numbers

    An idealisation, used for one statement only: that the two mappings
    are inverse of each other on the pitch codes 48 to 84.  It is not the
    binary64 arithmetic of the code, which rounds: what the code computes
    on an arbitrary frequency is studied on [App.detectPitch]. *)

Module Ideal.
Local Open Scope R_scope.

(** [Math.round]: [floor (x + 1/2)]. *)
Definition Math_round (x : R) : Z := Int_part (x + / 2).

(** audioUtils.ts, lines 3-6. *)
Definition getNoteFromFrequency (frequency : R) : Z :=
  let noteNum := 12 * (ln (frequency / 440) / ln 2) in
  (Math_round noteNum + 69)%Z.

(** audioUtils.ts, lines 8-10. *)
Definition getFrequencyFromMidi (midi : Z) : R :=
  440 * Rpower 2 ((IZR midi - 69) / 12).

(** App.tsx, lines 85-87. *)
Definition midiFloat (frequency : R) : R :=
  12 * (ln (frequency / 440) / ln 2) + 69.

Definition midiNote (frequency : R) : Z := Math_round (midiFloat frequency).

Definition cents (frequency : R) : R :=
  (midiFloat frequency - IZR (midiNote frequency)) * 100.

End Ideal.

(** * Properties *)

Import JS Types.

(** ** The JavaScript primitives on sample values *)

Section Primitives.
Local Open Scope float_scope.

Example Math_round_samples :
  map Math_round [69.5; 2.5; -2.5; -1.5; 0.5; 0.49999999999999994; 87.49; 1e300]
  = [70; 3; -2; -1; 1; 0; 87; 1e300] /\
  1 / Math_round (-0.5) = neg_infinity /\
  1 / Math_round 0.3 = infinity /\
  is_nan (Math_round nan) = true.
Proof. repeat split. Qed.

Example Math_max_samples :
  Math_max 0 (-16) = 0 /\ Math_max 0 48 = 48 /\
  1 / Math_max 0 (-0) = infinity /\ is_nan (Math_max 0 nan) = true.
Proof. repeat split. Qed.

Example slice_samples :
  slice [1; 2; 3; 4] 1 3 = [2; 3] /\ slice [1; 2; 3; 4] 0 (-1) = [1; 2; 3] /\
  slice [1; 2; 3; 4] 2 9 = [3; 4] /\ slice [] 0 (-1) = [] /\
  slice [1] 0 0 = [].
Proof. repeat split. Qed.

Example undefined_samples :
  get [1; 2] 2 = None /\ get [1; 2] (-1) = None /\
  gt (Some 1) None = false /\ gt None (Some 1) = false /\
  truthy (num None + 1) = false /\ truthy 0 = false /\ truthy (-0) = false /\
  truthy 0.5 = true.
Proof. repeat split. Qed.

End Primitives.

(** ** The game loop (App.tsx, lines 101-139 and 182-187) *)

Section GameLoop.
Import App.
Local Open Scope Z_scope.

(** The state [g] with another accumulated match time. *)
Definition with_hold (held : Z) (g : Game) : Game :=
  {| song := song g; currentIndex := currentIndex g; gameMode := gameMode g;
     isListening := isListening g; completed := completed g;
     matchDuration := held |}.

(** The effect gets past its guards: a song is loaded, the game is neither
    completed nor paused, and the current index names a note. *)
Definition playing (g : Game) (s : Song) (targetNote : Note) : Prop :=
  song g = Some s /\ completed g = false /\ isListening g = true /\
  note_at (notes s) (currentIndex g) = Some targetNote.

(** The observation [a] is a detected pitch on the target note and in tune. *)
Definition hits (m : GameMode) (targetNote : Note) (a : Audio) : bool :=
  match userMidi a with
  | Some um => onTarget m targetNote um (centsOff a)
  | None => false
  end.

Lemma with_hold_same (g : Game) : with_hold (matchDuration g) g = g.
Proof. destruct g; reflexivity. Qed.

Lemma gameLoop_playing a g s targetNote um :
  playing g s targetNote -> userMidi a = Some um ->
  gameLoop a g =
  advance s (accumulate (onTarget (gameMode g) targetNote um (centsOff a))
                        (matchDuration g)) g.
Proof.
  intros (Hs & Hc & Hl & Hn) Hu. unfold gameLoop.
  rewrite Hs, Hu, Hc, Hl, Hn. reflexivity.
Qed.

Lemma advance_below s held g :
  held <= requiredHoldTime (gameMode g) -> advance s held g = with_hold held g.
Proof.
  intros H. unfold advance.
  destruct (held >? requiredHoldTime (gameMode g)) eqn:E; [lia | reflexivity].
Qed.

Lemma advance_hold_nonneg s held g :
  0 <= held -> 0 <= matchDuration (advance s held g).
Proof.
  intros H. unfold advance.
  destruct (held >? _); [destruct (currentIndex g <? _) |]; simpl; lia.
Qed.

Lemma gameLoop_nopitch a g : userMidi a = None -> gameLoop a g = g.
Proof. intros H. unfold gameLoop. rewrite H. destruct (song g); reflexivity. Qed.

Lemma gameLoop_completed a g : completed g = true -> gameLoop a g = g.
Proof.
  intros H. unfold gameLoop. rewrite H.
  destruct (song g), (userMidi a); reflexivity.
Qed.

(** The accumulated match time stays non-negative over any run. *)
Lemma gameLoop_hold_nonneg a g :
  0 <= matchDuration g -> 0 <= matchDuration (gameLoop a g).
Proof.
  intros H. unfold gameLoop.
  destruct (song g) as [s|]; [| exact H].
  destruct (userMidi a) as [um|]; [| exact H].
  destruct (completed g || negb (isListening g))%bool; [exact H |].
  destruct (note_at (notes s) (currentIndex g)) as [t|]; [| exact H].
  apply advance_hold_nonneg. unfold accumulate.
  destruct (onTarget _ _ _ _); lia.
Qed.

Lemma run_hold_nonneg obs : forall g,
  0 <= matchDuration g -> 0 <= matchDuration (run obs g).
Proof.
  induction obs as [|a obs IH]; intros g H; simpl; [exact H |].
  apply IH, gameLoop_hold_nonneg, H.
Qed.

(** The values [matchDurationRef.current] takes between two runs of the
    effect. *)
Definition holdValues : list Z := [0; 16; 32; 48; 64; 80].

(** Lines 118-122 and 128 on numbers, as the source has them. *)
Definition accumulateNumber (hit : bool) (held : float) : float :=
  if hit then (held + 16)%float else Math_max 0 (held - 16)%float.

Definition aboveNumber (m : GameMode) (held : float) : bool :=
  (Z2F (requiredHoldTime m) <? held)%float.

(** On those values the number arithmetic of the source is exact: it gives
    the integers of [accumulate] and the same threshold test. *)
Lemma accumulate_exact (h : Z) (hit : bool) (m : GameMode) :
  In h holdValues ->
  accumulateNumber hit (Z2F h) = Z2F (accumulate hit h) /\
  aboveNumber m (accumulateNumber hit (Z2F h)) =
    (accumulate hit h >? requiredHoldTime m).
Proof.
  intros Hin. simpl in Hin.
  repeat (destruct Hin as [<- | Hin]; [destruct hit, m; split; reflexivity |]).
  contradiction.
Qed.

Lemma gameLoop_hold_values a g :
  In (matchDuration g) holdValues -> In (matchDuration (gameLoop a g)) holdValues.
Proof.
  intros H. unfold gameLoop.
  destruct (song g) as [s|]; [| exact H].
  destruct (userMidi a) as [um|]; [| exact H].
  destruct (completed g || negb (isListening g))%bool; [exact H |].
  destruct (note_at (notes s) (currentIndex g)) as [t|]; [| exact H].
  unfold advance, accumulate.
  destruct (onTarget _ _ _ _), (gameMode g), (currentIndex g <? _);
    simpl in H;
    repeat (destruct H as [<- | H]; [simpl; tauto |]); contradiction.
Qed.

Lemma run_hold_values obs : forall g,
  In (matchDuration g) holdValues -> In (matchDuration (run obs g)) holdValues.
Proof.
  induction obs as [|a obs IH]; intros g H; simpl; [exact H |].
  apply IH, gameLoop_hold_values, H.
Qed.

Lemma run_app obs1 obs2 g : run (obs1 ++ obs2) g = run obs2 (run obs1 g).
Proof. unfold run. apply fold_left_app. Qed.

Lemma playing_with_hold g s t held :
  playing g s t -> playing (with_hold held g) s t.
Proof. intros H. exact H. Qed.

(** A hit below the threshold only adds 16 ms. *)
Lemma gameLoop_hit a g s targetNote :
  playing g s targetNote -> hits (gameMode g) targetNote a = true ->
  matchDuration g + 16 <= requiredHoldTime (gameMode g) ->
  gameLoop a g = with_hold (matchDuration g + 16) g.
Proof.
  intros Hp Hh Hle. unfold hits in Hh.
  destruct (userMidi a) as [um|] eqn:Hu; [| discriminate].
  rewrite (gameLoop_playing a g s targetNote um Hp Hu), Hh.
  unfold accumulate. apply advance_below, Hle.
Qed.

Lemma Forall_firstn_keeps {A} (P : A -> Prop) (l : list A) :
  Forall P l -> forall k, Forall P (firstn k l).
Proof.
  induction 1 as [|x l Hx Hl IH]; intros [|k]; simpl; constructor; auto.
Qed.

Lemma run_hits obs : forall g s targetNote,
  playing g s targetNote ->
  Forall (fun a => hits (gameMode g) targetNote a = true) obs ->
  matchDuration g + 16 * Z.of_nat (length obs) <= requiredHoldTime (gameMode g) ->
  run obs g = with_hold (matchDuration g + 16 * Z.of_nat (length obs)) g.
Proof.
  induction obs as [|a obs IH]; intros g s t Hp Hf Hle.
  - simpl. rewrite Z.add_0_r. symmetry. apply with_hold_same.
  - inversion Hf as [|a' obs' Ha Hf']; subst.
    simpl length in *. rewrite Nat2Z.inj_succ in *.
    simpl run. fold (run obs (gameLoop a g)).
    rewrite (gameLoop_hit a g s t Hp Ha) by lia.
    rewrite (IH (with_hold (matchDuration g + 16) g) s t);
      unfold with_hold;
      cbn [song currentIndex gameMode isListening completed matchDuration].
    + f_equal. lia.
    + exact Hp.
    + exact Hf'.
    + lia.
Qed.

(** Sample data: a two-note song, middle C then the D above it. *)
Definition noteC4 : Note :=
  {| pitch := "C4"; frequency := 261.6255653005986%float; midi := 60%float;
     duration := 4%float; lyric := None; id := "gen-note-0" |}.

Definition noteD4 : Note :=
  {| pitch := "D4"; frequency := 293.6647679174076%float; midi := 62%float;
     duration := 4%float; lyric := None; id := "gen-note-1" |}.

Definition twoNotes : Song := {| title := "AI Melody"; notes := [noteC4; noteD4] |}.

Definition playingAt (i : Z) (m : GameMode) (held : Z) : Game :=
  {| song := Some twoNotes; currentIndex := i; gameMode := m;
     isListening := true; completed := false; matchDuration := held |}.

Definition heard (um cents : float) : Audio :=
  {| currentFreq := 0%float; centsOff := cents; userMidi := Some um |}.

Definition silence (cents : float) : Audio :=
  {| currentFreq := 0%float; centsOff := cents; userMidi := None |}.

(** C1, as stated, fails: on a frame without a detected pitch ([userMidi] is
    [null]) the effect returns at its guard (line 102) and the accumulated
    match time keeps its value, here 32, where the claim has
    max(0, 32 - 16) = 16. *)
Lemma nopitch_tick_does_not_decay :
  let g := playingAt 0 HARD 32 in
  let a := silence 0%float in
  userMidi a = None /\
  matchDuration (gameLoop a g) = 32 /\
  matchDuration (gameLoop a g) <> Z.max 0 (matchDuration g - 16).
Proof. cbv zeta. repeat split. vm_compute. discriminate. Qed.

(** C1, amended: on a run of the effect that gets past its guards with a
    detected pitch that is not on the target note or not in tune, the
    accumulated match time is set to max(0, held - 16), which is never
    negative; the threshold test of lines 128-137 then applies to that value
    (below or at the required hold time, it is the new accumulated time and
    nothing else moves).  A frame without a detected pitch leaves the game
    state as it is. *)
Theorem mismatch_tick_decays a g s targetNote um :
  playing g s targetNote ->
  userMidi a = Some um ->
  onTarget (gameMode g) targetNote um (centsOff a) = false ->
  let held := Z.max 0 (matchDuration g - 16) in
  gameLoop a g = advance s held g /\
  0 <= held /\
  0 <= matchDuration (gameLoop a g) /\
  (held <= requiredHoldTime (gameMode g) -> gameLoop a g = with_hold held g) /\
  (forall a', userMidi a' = None -> gameLoop a' g = g).
Proof.
  intros Hp Hu Hm held.
  assert (E : gameLoop a g = advance s held g).
  { rewrite (gameLoop_playing a g s targetNote um Hp Hu), Hm. reflexivity. }
  repeat split.
  - exact E.
  - subst held. lia.
  - rewrite E. apply advance_hold_nonneg. subst held. lia.
  - intros Hle. rewrite E. apply advance_below, Hle.
  - intros a' Ha'. apply gameLoop_nopitch, Ha'.
Qed.

Lemma mismatch_tick_decays_witness :
  let g := playingAt 0 HARD 32 in
  let a := heard 61%float 0%float in
  gameLoop a g = advance twoNotes 16 g /\
  0 <= 16 /\
  0 <= matchDuration (gameLoop a g) /\
  (16 <= requiredHoldTime (gameMode g) -> gameLoop a g = with_hold 16 g) /\
  (forall a', userMidi a' = None -> gameLoop a' g = g).
Proof.
  cbv zeta.
  apply (mismatch_tick_decays (heard 61%float 0%float) (playingAt 0 HARD 32)
           twoNotes noteC4 61%float).
  - repeat split.
  - reflexivity.
  - reflexivity.
Defined.

(** C3, as stated, fails on the last note of a song: the sixth hit reaches
    96 > 80 and resets the accumulated time, but line 131 finds no next
    note; [currentIndex] stays where it is, and the song is completed and
    the listening stopped instead (lines 134-135). *)
Lemma sixth_hit_on_last_note_completes :
  let g := playingAt 1 HARD 0 in
  let six := [heard 62%float 3%float; heard 62%float (-2)%float;
              heard 62%float 0%float; heard 62%float 4%float;
              heard 62%float 1%float; heard 62%float (-1)%float] in
  Forall (fun a => hits HARD noteD4 a = true) six /\
  run (firstn 5 six) g = playingAt 1 HARD 80 /\
  currentIndex (run six g) = 1 /\
  currentIndex (run six g) <> currentIndex g + 1 /\
  completed (run six g) = true /\
  isListening (run six g) = false /\
  matchDuration (run six g) = 0.
Proof.
  cbv zeta. split; [repeat constructor |]. vm_compute.
  repeat split. discriminate.
Qed.

(** C3, amended, a tick being one run of the game-loop effect: in Hard mode
    (required hold 80 ms, 16 ms per run), from an accumulated time of 0 on
    a target note, five consecutive runs on a hit leave the index and the
    completed flag alone and bring the accumulated time to 16, 32, 48, 64
    and then 80, which is not above the threshold; a sixth run on a hit
    reaches 96 > 80 and puts the accumulated time back to 0; then, when the
    target is not the last note, the index moves to the next note, once,
    and when it is the last note, the index stays, the song is completed
    and the listening stops. *)
Theorem hard_six_hits_advance_once g s targetNote obs a6 :
  playing g s targetNote ->
  gameMode g = HARD ->
  matchDuration g = 0 ->
  length obs = 5%nat ->
  Forall (fun a => hits HARD targetNote a = true) (obs ++ [a6]) ->
  (forall k, (k <= 5)%nat ->
     run (firstn k obs) g = with_hold (16 * Z.of_nat k) g) /\
  run obs g = with_hold 80 g /\
  gameLoop a6 (with_hold 80 g) = advance s 96 (with_hold 80 g) /\
  run (obs ++ [a6]) g =
    if currentIndex g <? Z.of_nat (length (notes s)) - 1
    then {| song := song g; currentIndex := currentIndex g + 1;
            gameMode := gameMode g; isListening := isListening g;
            completed := false; matchDuration := 0 |}
    else {| song := song g; currentIndex := currentIndex g;
            gameMode := gameMode g; isListening := false;
            completed := true; matchDuration := 0 |}.
Proof.
  intros Hp Hm H0 Hlen Hf.
  apply Forall_app in Hf. destruct Hf as [Hobs H6].
  inversion H6 as [|x l Ha6 _]; subst x l. clear H6.
  assert (Hk : forall k, (k <= 5)%nat ->
            run (firstn k obs) g = with_hold (16 * Z.of_nat k) g).
  { intros k Hk.
    assert (Hl : length (firstn k obs) = k) by (rewrite length_firstn; lia).
    rewrite (run_hits (firstn k obs) g s targetNote Hp).
    - rewrite Hl, H0. reflexivity.
    - rewrite Hm. apply Forall_firstn_keeps, Hobs.
    - rewrite Hl, H0, Hm. cbn [requiredHoldTime]. lia. }
  assert (H5 : run obs g = with_hold 80 g).
  { rewrite <- (firstn_all obs) at 1. rewrite Hlen. apply (Hk 5%nat). lia. }
  assert (Hp80 : playing (with_hold 80 g) s targetNote) by exact Hp.
  assert (E6 : gameLoop a6 (with_hold 80 g) = advance s 96 (with_hold 80 g)).
  { unfold hits in Ha6. destruct (userMidi a6) as [um|] eqn:Hu; [| discriminate].
    rewrite (gameLoop_playing a6 _ s targetNote um Hp80 Hu).
    simpl gameMode. rewrite Hm, Ha6. reflexivity. }
  repeat split; try assumption.
  rewrite run_app, H5. simpl run. rewrite E6.
  unfold advance. simpl. rewrite Hm. simpl.
  destruct Hp as (_ & Hc & _ & _). rewrite Hc.
  reflexivity.
Qed.

Lemma hard_six_hits_advance_once_witness :
  let g := playingAt 0 HARD 0 in
  let obs := [heard 60%float 10%float; heard 60%float 8%float;
              heard 60%float 5%float; heard 60%float 3%float;
              heard 60%float (-1)%float] in
  let a6 := heard 60%float (-4)%float in
  (forall k, (k <= 5)%nat ->
     run (firstn k obs) g = with_hold (16 * Z.of_nat k) g) /\
  run obs g = with_hold 80 g /\
  gameLoop a6 (with_hold 80 g) = advance twoNotes 96 (with_hold 80 g) /\
  run (obs ++ [a6]) g = playingAt 1 HARD 0.
Proof.
  cbv zeta.
  apply (hard_six_hits_advance_once (playingAt 0 HARD 0) twoNotes noteC4
           [heard 60%float 10%float; heard 60%float 8%float;
            heard 60%float 5%float; heard 60%float 3%float;
            heard 60%float (-1)%float] (heard 60%float (-4)%float)).
  - repeat split.
  - reflexivity.
  - reflexivity.
  - reflexivity.
  - repeat constructor.
Defined.

(** C9: once [completed] is true, a run of the effect changes nothing,
    whatever the observation and the difficulty, and so does any sequence
    of runs; [restart] puts the progression back to index 0, accumulated
    time 0, not completed. *)
Theorem completed_is_terminal g :
  completed g = true ->
  (forall a, gameLoop a g = g) /\
  (forall obs, run obs g = g) /\
  (forall granted,
     currentIndex (restart granted g) = 0 /\
     matchDuration (restart granted g) = 0 /\
     completed (restart granted g) = false).
Proof.
  intros Hc. split; [| split].
  - intros a. apply gameLoop_completed, Hc.
  - induction obs as [|a obs IH]; simpl; [reflexivity |].
    rewrite (gameLoop_completed a g Hc). exact IH.
  - intros granted. repeat split.
Qed.

Lemma completed_is_terminal_witness :
  let g := {| song := Some twoNotes; currentIndex := 1; gameMode := EASY;
              isListening := false; completed := true; matchDuration := 0 |} in
  (forall a, gameLoop a g = g) /\
  (forall obs, run obs g = g) /\
  (forall granted,
     currentIndex (restart granted g) = 0 /\
     matchDuration (restart granted g) = 0 /\
     completed (restart granted g) = false).
Proof.
  cbv zeta. apply completed_is_terminal. reflexivity.
Defined.

End GameLoop.

(** ** The detector (audioUtils.ts, lines 19-86) *)

Section Detector.
Import AudioUtils App.
Local Open Scope float_scope.

(** The value [autoCorrelate] returns for "not enough signal". *)
Definition NoPitch : float := -1.

Definition isNoPitch (f : float) : bool := f =? NoPitch.

(** A frequency a caller can use: positive and finite. *)
Definition positiveFinite (f : float) : bool := (0 <? f) && (f <? infinity).

Lemma get_Some_range (arr : list float) (i : Z) (x : float) :
  get arr i = Some x -> (0 <= i < Z.of_nat (length arr))%Z.
Proof.
  unfold get. destruct (i <? 0)%Z eqn:E; [discriminate |].
  intros H. assert (Hn : nth_error arr (Z.to_nat i) <> None) by congruence.
  apply nth_error_Some in Hn. lia.
Qed.

Lemma gt_true_defined (a b : option float) :
  gt a b = true -> exists x y, a = Some x /\ b = Some y.
Proof. destruct a, b; simpl; try discriminate. eauto. Qed.

(** The walk of lines 61-62 ends: with more fuel than there are positions
    left, it stops at the first [d'] where the loop condition fails, and
    that is a position of [c] unless the walk never moved. *)
Lemma decline_stops (c : list float) : forall fuel d,
  (Z.max 0 (Z.of_nat (length c) - d) < Z.of_nat fuel)%Z ->
  exists d',
    decline fuel c d = Some d' /\
    (d <= d')%Z /\
    gt (get c d') (get c (d' + 1)) = false /\
    (forall k, (d <= k < d')%Z -> gt (get c k) (get c (k + 1)) = true) /\
    (d' <= Z.max d (Z.of_nat (length c) - 1))%Z.
Proof.
  induction fuel as [|fuel IH]; intros d Hf; [lia |].
  simpl decline. destruct (gt (get c d) (get c (d + 1))) eqn:E.
  - destruct (gt_true_defined _ _ E) as (x & y & _ & Hy).
    apply get_Some_range in Hy.
    destruct (IH (d + 1)%Z) as (d' & Hd & Hle & Hstop & Hbefore & Hmax); [lia |].
    exists d'. repeat split; try assumption; try lia.
    intros k Hk. destruct (Z.eq_dec k d) as [->|Hne]; [exact E |].
    apply Hbefore. lia.
  - exists d. repeat split; try assumption; try lia.
Qed.

Lemma acf_length (b : list float) : length (acf b) = length b.
Proof. unfold acf. rewrite length_map, length_seq. reflexivity. Qed.

Lemma first_index_found (p : Z -> bool) (counters : list Z) (i : Z) :
  first_index p counters = Some i ->
  exists before after,
    counters = before ++ i :: after /\ p i = true /\
    Forall (fun j => p j = false) before.
Proof.
  induction counters as [|j rest IH]; simpl; [discriminate |].
  destruct (p j) eqn:E.
  - intros [= <-]. exists [], rest. repeat split; auto.
  - intros H. destruct (IH H) as (before & after & -> & Hp & Hb).
    exists (j :: before), after. repeat split; auto.
Qed.

Lemma first_index_none (p : Z -> bool) (counters : list Z) :
  first_index p counters = None -> Forall (fun j => p j = false) counters.
Proof.
  induction counters as [|j rest IH]; simpl; [constructor |].
  destruct (p j) eqn:E; [discriminate |]. intros H. constructor; auto.
Qed.

Lemma count_from_In (n : nat) : forall from z,
  In z (count_from n from) <-> (from <= z < from + Z.of_nat n)%Z.
Proof.
  induction n as [|n IH]; intros from z; simpl count_from.
  - simpl. lia.
  - simpl In. rewrite IH. lia.
Qed.

Lemma half_loop_In (from SIZE i : Z) :
  (0 <= from)%Z ->
  In i (half_loop from SIZE) <-> (from <= i /\ 2 * i < SIZE)%Z.
Proof.
  intros Hpos. unfold half_loop, range.
  rewrite filter_In, count_from_In. lia.
Qed.

(** The counters are tried in increasing order: no counter before the one
    found passes the test. *)
Lemma first_index_least (p q : Z -> bool) (n : nat) : forall from i,
  first_index p (filter q (count_from n from)) = Some i ->
  forall j, (from <= j < i)%Z -> q j = true -> p j = false.
Proof.
  induction n as [|n IH]; intros from i H j Hj Hq; simpl in H; [discriminate |].
  destruct (q from) eqn:Eq.
  - simpl in H. destruct (p from) eqn:Ep.
    + injection H as <-. lia.
    + destruct (Z.eq_dec j from) as [->|Hne]; [exact Ep |].
      apply (IH (from + 1)%Z i H); [lia | exact Hq].
  - destruct (Z.eq_dec j from) as [->|Hne]; [congruence |].
    apply (IH (from + 1)%Z i H); [lia | exact Hq].
Qed.

Lemma r1_bounds (buffer : list float) :
  (0 <= r1 buffer)%Z /\
  (buffer <> [] -> 2 * r1 buffer < Z.of_nat (length buffer))%Z.
Proof.
  unfold r1. destruct (first_index _ _) as [i|] eqn:E.
  - destruct (first_index_found _ _ _ E) as (b & a & Hl & _ & _).
    assert (Hin : In i (half_loop 0 (Z.of_nat (length buffer)))).
    { rewrite Hl. apply in_or_app. right. left. reflexivity. }
    apply half_loop_In in Hin; lia.
  - split; [lia |]. destruct buffer; [congruence | simpl length; lia].
Qed.

Lemma r2_bounds (buffer : list float) :
  (r2 buffer <= Z.of_nat (length buffer) - 1)%Z /\
  (r2 buffer = Z.of_nat (length buffer) - 1 \/
   Z.of_nat (length buffer) < 2 * r2 buffer)%Z.
Proof.
  unfold r2. destruct (first_index _ _) as [i|] eqn:E.
  - destruct (first_index_found _ _ _ E) as (b & a & Hl & _ & _).
    assert (Hin : In i (half_loop 1 (Z.of_nat (length buffer)))).
    { rewrite Hl. apply in_or_app. right. left. reflexivity. }
    apply half_loop_In in Hin; lia.
  - lia.
Qed.

Lemma slice_length (arr : list float) (s e : Z) :
  (0 <= s <= e)%Z -> (e <= Z.of_nat (length arr))%Z ->
  Z.of_nat (length (slice arr s e)) = (e - s)%Z.
Proof.
  intros Hs He. unfold slice.
  destruct (s <? 0)%Z eqn:E1; [lia |]. destruct (e <? 0)%Z eqn:E2; [lia |].
  rewrite length_firstn, length_skipn. lia.
Qed.

(** With two samples or more, the trimmed region is never empty. *)
Lemma buf2_nonempty (buffer : list float) :
  (2 <= length buffer)%nat -> buf2 buffer <> [].
Proof.
  intros H2. assert (Hne : buffer <> []) by (destruct buffer; simpl in *; [lia | congruence]).
  destruct (r1_bounds buffer) as [H10 H11]. specialize (H11 Hne).
  destruct (r2_bounds buffer) as [H20 H21].
  assert (Hlen : Z.of_nat (length (buf2 buffer)) = (r2 buffer - r1 buffer)%Z).
  { unfold buf2. apply slice_length; lia. }
  intros E. rewrite E in Hlen. simpl in Hlen. lia.
Qed.

(** [autoCorrelate] always returns a number. *)
Lemma autoCorrelate_total (buffer : list float) (sampleRate : float) :
  exists f, autoCorrelate buffer sampleRate = Some f.
Proof.
  unfold autoCorrelate. destruct (rms buffer <? 0.01); [eauto |].
  unfold correlate.
  destruct (decline_stops (acf (buf2 buffer)) (S (length (acf (buf2 buffer)))) 0)
    as (d & Hd & _); [lia |].
  rewrite Hd. eauto.
Qed.

(** C10: for every buffer the walk [while (c[d] > c[d + 1]) d++] over its
    autocorrelation array ends: it stops at the first [d] at which the
    comparison fails, and the comparison fails at the latest when [d + 1] is
    past the end, so [d] does not exceed the last position of [c].  ([c] has
    a last position as soon as the buffer has two samples; on an empty [c]
    the walk stops at once with [d = 0].) *)
Theorem decline_walk_terminates (buffer : list float) :
  let c := acf (buf2 buffer) in
  exists d,
    decline (S (length c)) c 0 = Some d /\
    (0 <= d)%Z /\
    gt (get c d) (get c (d + 1)) = false /\
    (forall k, (0 <= k < d)%Z -> gt (get c k) (get c (k + 1)) = true) /\
    (c <> [] -> (d <= Z.of_nat (length c) - 1)%Z) /\
    (c = [] -> d = 0%Z) /\
    ((2 <= length buffer)%nat -> c <> []).
Proof.
  intros c.
  destruct (decline_stops c (S (length c)) 0) as (d & Hd & H0 & Hstop & Hbefore & Hmax);
    [lia |].
  exists d. repeat split; try assumption.
  - intros Hne. destruct c; [congruence | simpl length in *; lia].
  - intros E. rewrite E in Hmax. simpl in Hmax. lia.
  - intros H2 E. apply (buf2_nonempty buffer H2).
    apply length_zero_iff_nil. rewrite <- acf_length. fold c. rewrite E. reflexivity.
Qed.

(** A test tone: a triangle wave of period 100 samples and amplitude 0.5,
    [n] samples from phase [k]. *)
Fixpoint triangle (n : nat) (k : Z) : list float :=
  match n with
  | O => []
  | S m =>
      let r := (k mod 100)%Z in
      (if (r <? 50)%Z then Z2F (r - 25) / 50 else Z2F (75 - r) / 50)
        :: triangle m (k + 1)
  end.

(** At 44100 Hz that is a 441 Hz tone, and a frame of 2048 samples of it is
    detected within 2 percent. *)
Example triangle_441_detected :
  exists f, autoCorrelate (triangle 2048 0) 44100 = Some f /\
            (432.18 <? f) && (f <? 449.82) = true.
Proof. eexists. split; vm_compute; reflexivity. Qed.

(** The sum of squares of a silent buffer. *)
Lemma zeros_sum_squares (n : nat) :
  fold_left (fun acc val => acc + val * val) (repeat 0 n) 0 = 0.
Proof. induction n as [|n IH]; simpl; [reflexivity | exact IH]. Qed.

(** A silent buffer of any length up to 32768 samples (the largest
    [fftSize] of an analyser node) is below the noise floor. *)
Lemma zeros_below_noise_floor (n : nat) :
  (1 <= Z.of_nat n <= 32768)%Z -> (rms (repeat 0 n) <? 0.01) = true.
Proof.
  intros Hn. unfold rms. rewrite zeros_sum_squares, repeat_length.
  assert (Hall : forallb (fun k => PrimFloat.sqrt (0 / Z2F k) <? 0.01)
                   (count_from (Z.to_nat 32768) 1) = true)
    by (vm_compute; reflexivity).
  rewrite forallb_forall in Hall. apply Hall. apply count_from_In. lia.
Qed.

(** C8: a buffer whose root-mean-square is below 0.01 gets the answer -1 at
    line 31, whatever the sample rate; trimming and autocorrelation
    ([correlate]) are not consulted. *)
Theorem quiet_buffer_is_NoPitch (buffer : list float) (sampleRate : float) :
  (rms buffer <? 0.01) = true ->
  autoCorrelate buffer sampleRate = Some NoPitch.
Proof.
  intros Hq. unfold autoCorrelate. rewrite Hq. reflexivity.
Qed.

Lemma quiet_buffer_is_NoPitch_witness :
  autoCorrelate (repeat 0 2048) 44100 = Some NoPitch.
Proof.
  apply (quiet_buffer_is_NoPitch (repeat 0 2048) 44100).
  apply zeros_below_noise_floor. split; [discriminate | discriminate].
Defined.

(** A result that is not a positive finite number is not in the vocal
    range either. *)
Lemma not_positiveFinite_out_of_range (frequency : float) :
  positiveFinite frequency = false -> inVocalRange frequency = false.
Proof.
  unfold positiveFinite, inVocalRange. rewrite !FloatAxioms.ltb_spec.
  destruct (Prim2SF frequency) as [s | s | | s m e]; intros H.
  - reflexivity.
  - destruct s; reflexivity.
  - reflexivity.
  - destruct s; [reflexivity |]. vm_compute in H. discriminate.
Qed.

(** C2, as stated, fails.  A 2048-sample frame that is silent but for a
    click in its last sample passes the noise floor; its trimmed region is
    all zeros, the walk and the peak search stay at lag 0, and the result is
    [sampleRate / 0], infinity.  On a one-sample buffer the trimmed region is
    empty, [maxpos] stays -1 and the result is [sampleRate / -1].  Neither
    result is -1 or a positive finite frequency. *)
Lemma degenerate_region_result :
  let click := repeat 0 2047 ++ [1] in
  (click <> [] /\ (0 <? 44100) = true /\
   autoCorrelate click 44100 = Some infinity /\
   isNoPitch infinity = false /\ positiveFinite infinity = false) /\
  ([0.5] <> [] /\ length (buf2 [0.5]) = 0%nat /\
   autoCorrelate [0.5] 44100 = Some (-44100) /\
   isNoPitch (-44100) = false /\ positiveFinite (-44100) = false).
Proof.
  cbv zeta. split.
  - split; [discriminate |]. vm_compute. repeat split.
  - split; [discriminate |]. vm_compute. repeat split.
Qed.

(** C2, amended: for every buffer and sample rate [autoCorrelate] returns a
    number, with no fault and with every loop ended: -1 when the
    root-mean-square is below 0.01, and otherwise [sampleRate / T0] for the
    interpolated peak lag [T0], with no test for a degenerate region; when
    the trimmed region is empty, that is [sampleRate / -1].  A result that
    is not strictly between 80 and 1200, and so any result that is not a
    positive finite number, is turned into "no pitch" only by
    [detectPitch]. *)
Theorem autoCorrelate_result (buffer : list float) (sampleRate : float) :
  let c := acf (buf2 buffer) in
  exists f,
    autoCorrelate buffer sampleRate = Some f /\
    ((rms buffer <? 0.01) = true -> f = NoPitch) /\
    ((rms buffer <? 0.01) = false ->
       exists d, decline (S (length c)) c 0 = Some d /\
                 f = sampleRate / interpolate c (snd (peak c d))) /\
    ((rms buffer <? 0.01) = false -> buf2 buffer = [] -> f = sampleRate / (-1)) /\
    (forall Math_log a,
       inVocalRange f = false -> userMidi (detectPitch Math_log f a) = None) /\
    (forall Math_log a,
       positiveFinite f = false -> userMidi (detectPitch Math_log f a) = None).
Proof.
  intros c.
  assert (Hout : forall f Math_log a,
            inVocalRange f = false -> userMidi (detectPitch Math_log f a) = None).
  { intros f Math_log a Hr. unfold detectPitch. rewrite Hr. reflexivity. }
  assert (Hnpf : forall f Math_log a,
            positiveFinite f = false -> userMidi (detectPitch Math_log f a) = None).
  { intros f Math_log a Hf. apply Hout, not_positiveFinite_out_of_range, Hf. }
  destruct (decline_stops c (S (length c)) 0) as (d & Hd & _); [lia |].
  unfold autoCorrelate, correlate. fold c. rewrite Hd.
  destruct (rms buffer <? 0.01) eqn:Hq.
  - exists NoPitch. split; [reflexivity |]. split; [reflexivity |].
    split; [discriminate |]. split; [discriminate |].
    split; intros Math_log a; [apply Hout | apply Hnpf].
  - exists (sampleRate / interpolate c (snd (peak c d))).
    split; [reflexivity |]. split; [discriminate |].
    split; [| split; [| split]].
    + intros _. exists d. split; reflexivity.
    + intros _ Hb. subst c. rewrite Hb in Hd |- *.
      vm_compute in Hd. injection Hd as <-. reflexivity.
    + intros Math_log a. apply Hout.
    + intros Math_log a. apply Hnpf.
Qed.

(** The trimming step as the specification words it: the leading bound is
    the first position in the first half whose sample exceeds the
    threshold, the trailing bound the last such position in the second
    half, each with the buffer's boundary as fallback. *)
Definition r1_spec (buffer : list float) : Z :=
  let SIZE := Z.of_nat (length buffer) in
  match first_index (fun i => thres <? Math_abs (num (get buffer i)))
                    (half_loop 0 SIZE) with
  | Some i => i
  | None => 0%Z
  end.

Definition r2_spec (buffer : list float) : Z :=
  let SIZE := Z.of_nat (length buffer) in
  match first_index (fun i => thres <? Math_abs (num (get buffer (SIZE - i))))
                    (half_loop 1 SIZE) with
  | Some i => (SIZE - i)%Z
  | None => (SIZE - 1)%Z
  end.

(** What lines 39-44 compute: [r1] is the first position of the first half
    whose sample is below the threshold in absolute value, and 0 when there
    is none. *)
Lemma r1_first_quiet (buffer : list float) :
  let SIZE := Z.of_nat (length buffer) in
  let quiet := fun i => Math_abs (num (get buffer i)) <? thres in
  (quiet (r1 buffer) = true /\ (2 * r1 buffer < SIZE)%Z /\
   forall j, (0 <= j < r1 buffer)%Z -> quiet j = false) \/
  (r1 buffer = 0%Z /\ forall j, (0 <= j)%Z -> (2 * j < SIZE)%Z -> quiet j = false).
Proof.
  intros SIZE quiet. unfold r1. fold SIZE. fold quiet.
  destruct (first_index quiet (half_loop 0 SIZE)) as [i|] eqn:E.
  - left. destruct (first_index_found _ _ _ E) as (before & after & Hl & Hq & _).
    assert (Hin : In i (half_loop 0 SIZE)).
    { rewrite Hl. apply in_or_app. right. left. reflexivity. }
    apply half_loop_In in Hin; [| lia].
    repeat split; [exact Hq | lia |].
    intros j Hj. unfold half_loop, range in E.
    apply (first_index_least _ _ _ _ _ E j); [lia |].
    apply Z.ltb_lt. lia.
  - right. split; [reflexivity |]. intros j Hj0 Hj.
    apply first_index_none in E. rewrite Forall_forall in E.
    apply E. apply half_loop_In; lia.
Qed.

(** The result -1 is not in the vocal range: a number equal to -1 is
    negative, and no negative number is above 80. *)
Lemma NoPitch_out_of_range (frequency : float) :
  isNoPitch frequency = true -> inVocalRange frequency = false.
Proof.
  unfold isNoPitch, NoPitch, inVocalRange. intros H.
  rewrite FloatAxioms.eqb_spec in H. rewrite (FloatAxioms.ltb_spec 80 frequency).
  destruct (Prim2SF frequency) as [s | s | | s m e].
  - vm_compute in H. discriminate.
  - destruct s; vm_compute in H; discriminate.
  - vm_compute in H. discriminate.
  - destruct s.
    + reflexivity.
    + vm_compute in H. discriminate.
Qed.

(** On the binary64 model too a tie goes up: whatever [Math.log] is, a
    pitch value of exactly 69.5 is classified as code 70 at -50 cents. *)
Lemma detectPitch_tie (Math_log : float -> float) (frequency : float) (a : Audio) :
  inVocalRange frequency = true ->
  midiFloat Math_log frequency = 69.5 ->
  userMidi (detectPitch Math_log frequency a) = Some 70 /\
  centsOff (detectPitch Math_log frequency a) = -50.
Proof.
  intros Hr Hp. unfold detectPitch. rewrite Hr, Hp. split; reflexivity.
Qed.

(** C4: the code does not do what the claim (and the comment at line 38,
    "Trim the buffer to the area where there is signal") says.  On a 2048
    sample frame made of 100 silent samples, 1848 samples at 0.5 and 100
    silent samples, lines 39-50 stop at the first sample *below* the
    threshold on each side, positions 0 and 2047, and keep the silence; the
    bounds of the claim, the first samples *above* the threshold, are 100
    and 1947. *)
Theorem trim_stops_at_quiet_sample :
  let buffer := repeat 0 100 ++ repeat 0.5 1848 ++ repeat 0 100 in
  length buffer = 2048%nat /\
  (r1 buffer = 0 /\ r2 buffer = 2047)%Z /\
  (r1_spec buffer = 100 /\ r2_spec buffer = 1947)%Z /\
  length (buf2 buffer) = 2047%nat.
Proof. cbv zeta. vm_compute. repeat split. Qed.

(** C7: [detectPitch] sets [userMidi] to [null] exactly when the detector's
    result is -1 or is not strictly above 80 and strictly below 1200 (and a
    result of -1 is not above 80); in that case the displayed frequency is
    set to 0 and the tuning error is kept, and nothing fails.  The bounds 80
    and 1200 themselves, 0, the negative results, [NaN] and the infinities
    are all outside.  For a result strictly between 80 and 1200 the
    displayed frequency is that result and [userMidi] is [Math.round] of
    [12 * (Math.log (frequency / 440) / Math.log 2) + 69].  Whatever the
    buffer, the frame ends with such an observation. *)
Theorem detectPitch_userMidi (Math_log : float -> float) (frequency : float) (a : Audio) :
  let a' := detectPitch Math_log frequency a in
  (userMidi a' = None <->
     ((frequency =? -1) = true \/
      (80 <? frequency) = false \/ (frequency <? 1200) = false)) /\
  ((frequency =? -1) = true -> (80 <? frequency) = false) /\
  ((80 <? frequency) = true -> (frequency <? 1200) = true ->
     userMidi a' =
       Some (Math_round (12 * (Math_log (frequency / 440) / Math_log 2) + 69)) /\
     currentFreq a' = frequency) /\
  (userMidi a' = None -> currentFreq a' = 0 /\ centsOff a' = centsOff a) /\
  (forall x, In x [80; 1200; 0; -1; -44100; nan; infinity; neg_infinity] ->
     userMidi (detectPitch Math_log x a) = None) /\
  (forall x, In x [80.00000000000001; 440; 1199.9999999999998] ->
     userMidi (detectPitch Math_log x a) =
       Some (Math_round (12 * (Math_log (x / 440) / Math_log 2) + 69))) /\
  (forall buffer sampleRate,
     exists f, autoCorrelate buffer sampleRate = Some f /\
               frame Math_log buffer sampleRate a = Some (detectPitch Math_log f a)).
Proof.
  cbv zeta.
  assert (Hno : (frequency =? -1) = true -> (80 <? frequency) = false).
  { intros H. rewrite FloatAxioms.eqb_spec in H. rewrite FloatAxioms.ltb_spec.
    destruct (Prim2SF frequency) as [s | s | | s m e].
    - vm_compute in H. discriminate.
    - destruct s; vm_compute in H; discriminate.
    - vm_compute in H. discriminate.
    - destruct s; [reflexivity | vm_compute in H; discriminate]. }
  split; [| split; [exact Hno | split; [| split; [| split; [| split]]]]].
  - unfold detectPitch, inVocalRange.
    destruct (80 <? frequency) eqn:E1; destruct (frequency <? 1200) eqn:E2;
      simpl; split; intros H; try discriminate; try reflexivity; auto.
    destruct H as [H | [H | H]]; try discriminate.
    apply Hno in H. congruence.
  - intros E1 E2. unfold detectPitch, inVocalRange, midiFloat.
    rewrite E1, E2. simpl. split; reflexivity.
  - unfold detectPitch. destruct (inVocalRange frequency); simpl.
    + discriminate.
    + intros _. split; reflexivity.
  - intros x Hx. simpl in Hx.
    repeat (destruct Hx as [Hx | Hx]; [subst x; reflexivity |]). contradiction.
  - intros x Hx. simpl in Hx.
    repeat (destruct Hx as [Hx | Hx]; [subst x; reflexivity |]). contradiction.
  - intros buffer sampleRate.
    destruct (autoCorrelate_total buffer sampleRate) as (f & Hf).
    exists f. split; [exact Hf |]. unfold frame. rewrite Hf. reflexivity.
Qed.

End Detector.

(** ** The pitch mappings (audioUtils.ts, lines 3-10; App.tsx, lines 85-87) *)

Section Classifier.
Local Open Scope R_scope.

Lemma ln2_pos : 0 < ln 2.
Proof. pose proof ln_lt_2. lra. Qed.

(** [Math.round] of an integer is that integer. *)
Lemma Math_round_IZR (z : Z) : Ideal.Math_round (IZR z) = z.
Proof.
  unfold Ideal.Math_round. symmetry. apply Int_part_spec. lra.
Qed.

(** The continuous pitch value of the frequency of pitch code [c] is [c]. *)
Lemma midiFloat_getFrequencyFromMidi (c : Z) :
  Ideal.midiFloat (Ideal.getFrequencyFromMidi c) = IZR c.
Proof.
  unfold Ideal.midiFloat, Ideal.getFrequencyFromMidi.
  replace (440 * Rpower 2 ((IZR c - 69) / 12) / 440)
    with (Rpower 2 ((IZR c - 69) / 12)) by (field; lra).
  rewrite ln_Rpower. pose proof ln2_pos. field. lra.
Qed.

Lemma Rpower_2_quarter : Rpower 2 (/ 4) < 1.36.
Proof.
  assert (Hpos : 0 < Rpower 2 (/ 4)) by (unfold Rpower; apply exp_pos).
  assert (H4 : Rpower 2 (/ 4) ^ 4 = 2).
  { rewrite <- Rpower_pow by exact Hpos. rewrite Rpower_mult.
    replace (/ 4 * INR 4) with 1 by (simpl; field).
    apply Rpower_1. lra. }
  destruct (Rlt_le_dec (Rpower 2 (/ 4)) 1.36) as [Hlt | Hge]; [exact Hlt |].
  exfalso. set (y := Rpower 2 (/ 4)) in *.
  assert (H2 : 1.36 * 1.36 <= y * y) by nra.
  assert (H44 : (1.36 * 1.36) * (1.36 * 1.36) <= (y * y) * (y * y)) by nra.
  simpl in H4. lra.
Qed.

(** The frequencies of the pitch codes 48 to 84 are in the vocal range. *)
Lemma getFrequencyFromMidi_in_range (c : Z) :
  (48 <= c <= 84)%Z -> 80 < Ideal.getFrequencyFromMidi c < 1200.
Proof.
  intros [Hlo Hhi]. apply IZR_le in Hlo, Hhi. unfold Ideal.getFrequencyFromMidi.
  assert (Hquarter : Rpower 2 (- INR 2) = / 4).
  { rewrite Rpower_Ropp, Rpower_pow by lra. simpl. field. }
  assert (Hlow : Rpower 2 (- INR 2) <= Rpower 2 ((IZR c - 69) / 12))
    by (apply Rle_Rpower; simpl; lra).
  assert (Hup : Rpower 2 ((IZR c - 69) / 12) <= Rpower 2 (1 + / 4))
    by (apply Rle_Rpower; lra).
  rewrite Rpower_plus, Rpower_1 in Hup by lra.
  pose proof Rpower_2_quarter. lra.
Qed.

(** C6: the two mappings are inverse of each other on the pitch codes: for
    every integer c from 48 to 84, the frequency 440 * 2^((c - 69) / 12) is
    in the vocal range, [getNoteFromFrequency] and the classification of
    [detectPitch] both give back c, and the tuning error is 0. *)
Theorem code_frequency_roundtrip (c : Z) :
  (48 <= c <= 84)%Z ->
  let f := Ideal.getFrequencyFromMidi c in
  Ideal.getNoteFromFrequency f = c /\
  Ideal.midiNote f = c /\
  Ideal.cents f = 0 /\
  80 < f < 1200.
Proof.
  intros Hc f.
  assert (Hp : Ideal.midiFloat f = IZR c) by apply midiFloat_getFrequencyFromMidi.
  assert (Hn : Ideal.midiNote f = c).
  { unfold Ideal.midiNote. rewrite Hp. apply Math_round_IZR. }
  split; [| split; [exact Hn | split]].
  - unfold Ideal.getNoteFromFrequency.
    replace (12 * (ln (f / 440) / ln 2)) with (IZR (c - 69)).
    + rewrite Math_round_IZR. lia.
    + rewrite minus_IZR. unfold Ideal.midiFloat in Hp. lra.
  - unfold Ideal.cents. rewrite Hn, Hp. lra.
  - apply getFrequencyFromMidi_in_range, Hc.
Qed.

Lemma code_frequency_roundtrip_witness :
  let f := Ideal.getFrequencyFromMidi 60 in
  Ideal.getNoteFromFrequency f = 60%Z /\
  Ideal.midiNote f = 60%Z /\
  Ideal.cents f = 0 /\
  80 < f < 1200.
Proof.
  cbv zeta. apply (code_frequency_roundtrip 60). lia.
Defined.

End Classifier.

(** ** The tuning error in binary64 (App.tsx, lines 85-87)

    [midiFloat - midiNote] and its product by 100 are computed on binary64
    numbers.  For a pitch value of 32 or more both operations are exact:
    the difference is a multiple of the unit in the last place of the pitch
    value, of at most 47 binary digits, and 100 times that fits in 53. *)

Section TuningError.
Import App.
Local Open Scope Z_scope.

(** The number of binary digits of a mantissa. *)
Definition dz (p : positive) : Z := Zpos (digits2_pos p).

Lemma digits2_size (p : positive) : digits2_pos p = Pos.size p.
Proof. induction p; simpl; congruence. Qed.

Lemma dz_bounds (p : positive) : 2 ^ (dz p - 1) <= Zpos p < 2 ^ dz p.
Proof.
  unfold dz. rewrite digits2_size.
  pose proof (Pos.size_gt p) as Hgt. pose proof (Pos.size_le p) as Hle.
  assert (E : 2 ^ Zpos (Pos.size p) = Zpos (2 ^ Pos.size p)) by (rewrite Pos2Z.inj_pow; reflexivity).
  assert (E2 : 2 ^ Zpos (Pos.size p) = 2 * 2 ^ (Zpos (Pos.size p) - 1)).
  { rewrite <- Z.pow_succ_r by lia. f_equal. lia. }
  lia.
Qed.

Lemma dz_pos (p : positive) : 1 <= dz p.
Proof. unfold dz. lia. Qed.

Lemma dz_unique (p : positive) (d : Z) : 2 ^ (d - 1) <= Zpos p < 2 ^ d -> dz p = d.
Proof.
  intros [Hlo Hhi]. pose proof (dz_bounds p) as [Blo Bhi]. pose proof (dz_pos p).
  assert (0 < d).
  { destruct (Z_lt_le_dec 0 d); [assumption |].
    assert (2 ^ d <= 2 ^ 0) by (apply Z.pow_le_mono_r; lia). simpl in *. lia. }
  destruct (Z_lt_le_dec (dz p) d) as [L | L].
  - assert (2 ^ dz p <= 2 ^ (d - 1)) by (apply Z.pow_le_mono_r; lia). lia.
  - destruct (Z_lt_le_dec d (dz p)) as [G | G]; [| lia].
    assert (2 ^ d <= 2 ^ (dz p - 1)) by (apply Z.pow_le_mono_r; lia). lia.
Qed.

Lemma iter_xO (m d : positive) : Zpos (Pos.iter xO m d) = Zpos m * 2 ^ Zpos d.
Proof.
  induction d using Pos.peano_ind.
  - simpl. lia.
  - rewrite Pos.iter_succ. rewrite Pos2Z.inj_xO, IHd, Pos2Z.inj_succ, Z.pow_succ_r by lia. lia.
Qed.

Lemma iter_pos_nat {A} (f : A -> A) (p : positive) : forall x,
  SpecFloat.iter_pos f p x = Nat.iter (Pos.to_nat p) f x.
Proof.
  induction p; intros x; simpl SpecFloat.iter_pos.
  - rewrite !IHp. rewrite Pos2Nat.inj_xI. 
    replace (S (2 * Pos.to_nat p)) with (Pos.to_nat p + (Pos.to_nat p + 1))%nat by lia.
    rewrite !Nat.iter_add. reflexivity.
  - rewrite !IHp. rewrite Pos2Nat.inj_xO.
    replace (2 * Pos.to_nat p)%nat with (Pos.to_nat p + Pos.to_nat p)%nat by lia.
    rewrite Nat.iter_add. reflexivity.
  - reflexivity.
Qed.

Lemma shr_exact_nat (n : nat) : forall (P M : positive),
  Zpos P = Zpos M * 2 ^ Z.of_nat n ->
  Nat.iter n shr_1 {| shr_m := Zpos P; shr_r := false; shr_s := false |} =
    {| shr_m := Zpos M; shr_r := false; shr_s := false |}.
Proof.
  induction n; intros P M H.
  - simpl in *. f_equal. lia.
  - rewrite Nat.iter_succ_r.
    rewrite Nat2Z.inj_succ, Z.pow_succ_r in H by lia.
    destruct P as [P | P |].
    + exfalso. lia.
    + simpl shr_1. apply IHn. lia.
    + exfalso. assert (0 < 2 ^ Z.of_nat n) by (apply Z.pow_pos_nonneg; lia). nia.
Qed.

Lemma shr_exact (P M : positive) (E n : Z) :
  0 <= n -> Zpos P = Zpos M * 2 ^ n ->
  shr {| shr_m := Zpos P; shr_r := false; shr_s := false |} E n =
    ({| shr_m := Zpos M; shr_r := false; shr_s := false |}, E + n).
Proof.
  intros Hn H. unfold shr. destruct n as [| p | p]; [| | lia].
  - f_equal; [| lia]. f_equal. simpl in H. lia.
  - f_equal. rewrite iter_pos_nat. apply shr_exact_nat. rewrite positive_nat_Z. exact H.
Qed.

(** Rounding a mantissa that is a 53-digit number followed by zeros. *)
Lemma round_aux_exact (s : bool) (P M : positive) (E n : Z) :
  dz M = 53 -> 0 <= n -> Zpos P = Zpos M * 2 ^ n ->
  -1074 <= E + n <= 971 ->
  binary_round_aux prec emax s (Zpos P) E loc_Exact = S754_finite s M (E + n).
Proof.
  intros HM Hn HP HE.
  assert (HdP : dz P = 53 + n).
  { apply dz_unique. pose proof (dz_bounds M) as B. rewrite HM in B.
    replace (53 + n - 1) with (52 + n) by lia.
    rewrite !Z.pow_add_r by lia. 
    assert (0 < 2 ^ n) by (apply Z.pow_pos_nonneg; lia). simpl (53 - 1) in B. nia. }
  unfold binary_round_aux, shr_fexp. simpl Zdigits2. fold (dz P). rewrite HdP.
  unfold fexp, emin, prec, emax. 
  replace (Z.max (53 + n + E - 53) (3 - 1024 - 53) - E) with n by lia.
  simpl shr_record_of_loc. rewrite (shr_exact P M E n Hn HP).
  simpl shr_m. simpl loc_of_shr_record. simpl round_nearest_even.
  simpl Zdigits2. fold (dz M). rewrite HM.
  replace (Z.max (53 + (E + n) - 53) (3 - 1024 - 53) - (E + n)) with 0 by lia.
  simpl. destruct (E + n <=? 971) eqn:L; [reflexivity |]. apply Z.leb_gt in L. lia.
Qed.

Lemma shl_align_le (mx : positive) (ex ex' : Z) :
  ex' <= ex ->
  exists P, shl_align mx ex ex' = (P, ex') /\ Zpos P = Zpos mx * 2 ^ (ex - ex').
Proof.
  intros H. unfold shl_align. destruct (ex' - ex) as [| d | d] eqn:E.
  - exists mx. assert (ex = ex') by lia. subst ex'. split; [reflexivity |].
    rewrite Z.sub_diag. simpl. lia.
  - lia.
  - exists (Pos.iter xO mx d). split; [reflexivity |].
    rewrite iter_xO. f_equal. f_equal. lia.
Qed.

(** A nonzero integer [N] of at most 53 digits, times [2^E], is a binary64
    number: [binary_round] returns it, normalised. *)
Lemma binary_round_exact (s : bool) (N : positive) (E : Z) :
  dz N <= 53 -> -1074 <= E + dz N - 53 <= 971 ->
  exists M, binary_round prec emax s N E = S754_finite s M (E + dz N - 53) /\
            Zpos M = Zpos N * 2 ^ (53 - dz N) /\ dz M = 53.
Proof.
  intros Hd HE. unfold binary_round. fold (dz N).
  unfold fexp, emin, prec, emax.
  replace (Z.max (dz N + E - 53) (3 - 1024 - 53)) with (E + dz N - 53) by lia.
  destruct (shl_align_le N E (E + dz N - 53)) as (P & HP & HPv); [lia |].
  rewrite HP. replace (E - (E + dz N - 53)) with (53 - dz N) in HPv by lia.
  assert (HdP : dz P = 53).
  { apply dz_unique. pose proof (dz_bounds N) as [Blo Bhi]. rewrite HPv.
    pose proof (dz_pos N).
    replace (2 ^ (53 - 1)) with (2 ^ (dz N - 1) * 2 ^ (53 - dz N)).
    2:{ rewrite <- Z.pow_add_r by lia. f_equal. lia. }
    replace (2 ^ 53) with (2 ^ dz N * 2 ^ (53 - dz N)).
    2:{ rewrite <- Z.pow_add_r by lia. f_equal. lia. }
    assert (0 < 2 ^ (53 - dz N)) by (apply Z.pow_pos_nonneg; lia). nia. }
  exists P. split; [| split; assumption].
  cbv beta iota.
  assert (R : binary_round_aux prec emax s (Zpos P) (E + dz N - 53) loc_Exact =
              S754_finite s P (E + dz N - 53 + 0)).
  { apply round_aux_exact; [exact HdP | lia | simpl; lia | lia]. }
  unfold prec, emax in R. rewrite R. f_equal. lia.
Qed.

Lemma mul_exact (s1 s2 : bool) (M1 M2 M : positive) (E1 E2 n : Z) :
  dz M = 53 -> 0 <= n -> Zpos M1 * Zpos M2 = Zpos M * 2 ^ n ->
  -1074 <= E1 + E2 + n <= 971 ->
  SFmul prec emax (S754_finite s1 M1 E1) (S754_finite s2 M2 E2) =
    S754_finite (xorb s1 s2) M (E1 + E2 + n).
Proof.
  intros HM Hn HP HE. simpl SFmul.
  apply round_aux_exact; assumption.
Qed.

(** A positive integer of at most 53 digits read as a number. *)
Lemma Z2F_exact (n : positive) :
  dz n <= 53 ->
  exists M, Prim2SF (Z2F (Zpos n)) = S754_finite false M (dz n - 53) /\
            Zpos M = Zpos n * 2 ^ (53 - dz n) /\ dz M = 53.
Proof.
  intros Hd.
  assert (E : Prim2SF (Z2F (Zpos n)) = binary_round prec emax false n 0).
  { unfold Z2F. change (Zpos n <? 0) with false. cbv iota.
    rewrite FloatAxioms.of_uint63_spec, Uint63.of_Z_spec.
    pose proof (dz_bounds n) as [_ Bhi].
    assert (2 ^ dz n <= 2 ^ 53) by (apply Z.pow_le_mono_r; lia).
    rewrite Z.mod_small by (unfold wB; simpl; lia).
    reflexivity. }
  rewrite E.
  destruct (binary_round_exact false n 0 Hd) as (M & HM & HMv & HMd).
  { pose proof (dz_pos n). lia. }
  exists M. split; [exact HM | split; assumption].
Qed.

Lemma pow2_split (a b : Z) : 0 <= a -> 0 <= b -> 2 ^ (a + b) = 2 ^ a * 2 ^ b.
Proof. intros. apply Z.pow_add_r; assumption. Qed.

Lemma pow2_pos (a : Z) : 0 <= a -> 0 < 2 ^ a.
Proof. intros. apply Z.pow_pos_nonneg; lia. Qed.

Lemma dz_le_of_lt (p : positive) (d : Z) : Zpos p < 2 ^ d -> dz p <= d.
Proof.
  intros H. pose proof (dz_bounds p) as [Blo _]. pose proof (dz_pos p).
  destruct (Z_lt_le_dec d (dz p)) as [L | L]; [| exact L].
  assert (2 ^ d <= 2 ^ (dz p - 1)).
  { destruct (Z_lt_le_dec d 0).
    - rewrite (Z.pow_neg_r 2 d) by lia. apply Z.pow_nonneg. lia.
    - apply Z.pow_le_mono_r; lia. }
  lia.
Qed.

Lemma dz_ge_of_le (p : positive) (d : Z) : 2 ^ d <= Zpos p -> d < dz p.
Proof.
  intros H. pose proof (dz_bounds p) as [_ Bhi]. pose proof (dz_pos p).
  destruct (Z_lt_le_dec d (dz p)) as [L | L]; [exact L |].
  assert (2 ^ dz p <= 2 ^ d) by (apply Z.pow_le_mono_r; lia). lia.
Qed.

Lemma valid_normal (s : bool) (m : positive) (e : Z) (x : float) :
  Prim2SF x = S754_finite s m e -> -1074 < e -> dz m = 53 /\ e <= 971.
Proof.
  intros Hx He. pose proof (FloatAxioms.Prim2SF_valid x) as Hv. rewrite Hx in Hv.
  simpl in Hv. unfold bounded, canonical_mantissa in Hv.
  apply andb_true_iff in Hv. destruct Hv as [Hc Hb].
  apply Z.eqb_eq in Hc. apply Z.leb_le in Hb. fold (dz m) in Hc.
  unfold fexp, emin, prec, emax in *. lia.
Qed.

(** The pitch value [m * 2^e] and its rounding. *)
Lemma round_parts (m : positive) (e T n : Z) :
  dz m = 53 -> -47 <= e < 0 ->
  T = 2 ^ (- e - 1) ->
  n = (2 * Zpos m + 2 ^ (- e)) / 2 ^ (- e + 1) ->
  1 <= T /\ 2 ^ (- e) = 2 * T /\ - T <= Zpos m - n * (2 * T) < T /\
  2 ^ (52 + e) <= n <= 2 ^ (53 + e).
Proof.
  intros Hd He HT0 Hn.
  pose proof (dz_bounds m) as Bm. rewrite Hd in Bm.
  assert (HT1 : 2 ^ (- e) = 2 * T).
  { subst T. rewrite <- Z.pow_succ_r by lia. f_equal. lia. }
  assert (HT2 : 2 ^ (- e + 1) = 4 * T).
  { replace (- e + 1) with (Z.succ (- e)) by lia. rewrite Z.pow_succ_r by lia. lia. }
  assert (HT : 1 <= T) by (subst T; pose proof (pow2_pos (- e - 1)); lia).
  assert (HA : 2 ^ (52 + e) * (2 * T) = 2 ^ (53 - 1)).
  { rewrite <- HT1, <- Z.pow_add_r by lia. f_equal. lia. }
  assert (HA2 : 2 ^ (53 + e) = 2 * 2 ^ (52 + e)).
  { replace (53 + e) with (Z.succ (52 + e)) by lia. rewrite Z.pow_succ_r by lia. lia. }
  assert (HA3 : 2 ^ 53 = 2 * 2 ^ (53 - 1)) by reflexivity.
  assert (HApos : 0 < 2 ^ (52 + e)) by (apply pow2_pos; lia).
  rewrite HA2. rewrite HA3 in Bm. clear HA2 HA3.
  generalize dependent (2 ^ (52 + e)). intros A HA HApos.
  generalize dependent (2 ^ (53 - 1)). intros B Bm HA.
  rewrite HT1, HT2 in Hn. clear HT0 HT2.
  pose proof (Z.div_mod (2 * Zpos m + 2 * T) (4 * T)) as Hdm.
  pose proof (Z.mod_pos_bound (2 * Zpos m + 2 * T) (4 * T)) as Hmod.
  rewrite <- Hn in Hdm.
  set (r := (2 * Zpos m + 2 * T) mod (4 * T)) in *.
  assert (Hdm' : 2 * Z.pos m + 2 * T = 4 * (T * n) + r) by (rewrite Hdm by lia; ring).
  assert (Hr : 0 <= r < 4 * T) by (apply Hmod; lia).
  clearbody r. clear Hdm Hmod Hn.
  replace (n * (2 * T)) with (2 * (T * n)) by ring.
  replace (A * (2 * T)) with (2 * (T * A)) in HA by ring.
  split; [exact HT | split; [exact HT1 | split; [lia |]]].
  split.
  - destruct (Z_lt_le_dec n A) as [L | L]; [| exact L]. exfalso.
    assert (T * n <= T * (A - 1)) by (apply Z.mul_le_mono_nonneg_l; lia).
    replace (T * (A - 1)) with (T * A - T) in H by ring. lia.
  - destruct (Z_lt_le_dec (2 * A) n) as [L | L]; [| exact L]. exfalso.
    assert (T * (2 * A + 1) <= T * n) by (apply Z.mul_le_mono_nonneg_l; lia).
    replace (T * (2 * A + 1)) with (2 * (T * A) + T) in H by ring. lia.
Qed.

(** [p - Math.round(p)] is computed without rounding error. *)
Lemma round_diff (p : float) (m : positive) (e : Z) :
  Prim2SF p = S754_finite false m e -> -47 <= e < 0 ->
  exists n k : Z,
    Math_round p = Z2F n /\ 32 <= n /\
    k = Zpos m - n * 2 ^ (- e) /\
    - 2 ^ (- e - 1) <= k < 2 ^ (- e - 1) /\
    Prim2SF (p - Math_round p)%float = binary_normalize prec emax k e false.
Proof.
  intros Hp He.
  destruct (valid_normal false m e p Hp) as [Hd _]; [lia |].
  set (T := 2 ^ (- e - 1)).
  set (n := (2 * Zpos m + 2 ^ (- e)) / 2 ^ (- e + 1)).
  destruct (round_parts m e T n Hd He eq_refl eq_refl) as (HT & HT1 & Hk & Hn).
  assert (H32 : 2 ^ 5 <= 2 ^ (52 + e)) by (apply Z.pow_le_mono_r; lia).
  assert (H53 : 2 ^ (53 + e) <= 2 ^ 52) by (apply Z.pow_le_mono_r; lia).
  change (2 ^ 5) with 32 in H32.
  exists n, (Zpos m - n * 2 ^ (- e)).
  assert (Hr : Math_round p = Z2F n).
  { unfold Math_round. rewrite Hp.
    destruct (0 <=? e) eqn:E0; [apply Z.leb_le in E0; lia |].
    cbv zeta. fold n. destruct (n =? 0) eqn:En; [apply Z.eqb_eq in En; lia | reflexivity]. }
  split; [exact Hr | split; [lia | split; [reflexivity | split; [rewrite HT1; lia |]]]].
  rewrite Hr. destruct n as [| np | np]; [lia | | lia].
  assert (Hdn : 53 + e <= dz np <= 53).
  { split.
    - apply Z.lt_succ_r. replace (Z.succ (dz np)) with (dz np + 1) by lia.
      assert (52 + e < dz np) by (apply dz_ge_of_le; lia). lia.
    - apply dz_le_of_lt. change (2 ^ 53) with (2 * 2 ^ 52). lia. }
  destruct (Z2F_exact np) as (Mn & HMn & HMv & HMd); [lia |].
  rewrite FloatAxioms.sub_spec, Hp, HMn.
  unfold FloatAxioms.SF64sub, SFsub.
  replace (Z.min e (dz np - 53)) with e by lia.
  destruct (shl_align_le m e e) as (P1 & HP1 & HP1v); [lia |].
  destruct (shl_align_le Mn (dz np - 53) e) as (P2 & HP2 & HP2v); [lia |].
  rewrite HP1, HP2. cbn [fst cond_Zopp].
  f_equal. rewrite HP1v, HP2v, HMv, Z.sub_diag.
  replace (Zpos np * 2 ^ (53 - dz np) * 2 ^ (dz np - 53 - e)) with (Zpos np * 2 ^ (- e)).
  - simpl (2 ^ 0). lia.
  - rewrite <- Z.mul_assoc, <- Z.pow_add_r by lia. f_equal. f_equal. lia.
Qed.

(** The mantissa of 50, 100 and -50: 25 * 2^48. *)
Definition M50 : positive := 7036874417766400.

(** [25 * K * 2^(e+2)], for [0 < K <= 2^(-e-1)], against 50. *)
Lemma scaled_against_50 (N25 M : positive) (K e : Z) :
  -47 <= e < 0 -> 0 < K <= 2 ^ (- e - 1) ->
  Zpos N25 = 25 * K -> Zpos M = Zpos N25 * 2 ^ (53 - dz N25) ->
  dz N25 <= 4 - e /\
  (dz N25 = 4 - e -> (Zpos M <= Zpos M50 /\ (K < 2 ^ (- e - 1) -> Zpos M < Zpos M50))).
Proof.
  intros He HK HN HM.
  assert (HT4 : 2 ^ (4 - e) = 32 * 2 ^ (- e - 1)).
  { replace (4 - e) with (5 + (- e - 1)) by lia. rewrite Z.pow_add_r by lia. reflexivity. }
  assert (Hd : dz N25 <= 4 - e) by (apply dz_le_of_lt; lia).
  split; [exact Hd |]. intros E. rewrite E in HM.
  replace (53 - (4 - e)) with (49 + e) in HM by lia.
  assert (H48 : Zpos M50 = 25 * (2 ^ (- e - 1) * 2 ^ (49 + e))).
  { rewrite <- Z.pow_add_r by lia. replace (- e - 1 + (49 + e)) with 48 by lia. reflexivity. }
  assert (Hpos : 0 < 2 ^ (49 + e)) by (apply pow2_pos; lia).
  rewrite HM, HN, H48. split.
  - rewrite <- Z.mul_assoc. apply Z.mul_le_mono_nonneg_l; [lia |].
    apply Z.mul_le_mono_nonneg_r; lia.
  - intros L. rewrite <- Z.mul_assoc. apply Z.mul_lt_mono_pos_l; [lia |].
    apply Z.mul_lt_mono_pos_r; lia.
Qed.

Lemma scaled_product (s : bool) (kp : positive) (e : Z) :
  -47 <= e < 0 -> Zpos kp <= 2 ^ (- e - 1) ->
  exists M : positive,
    SFmul prec emax (binary_round prec emax s kp e) (S754_finite false M50 (-46)) =
      S754_finite s M (e + dz (25 * kp) - 51) /\
    Zpos M = Zpos (25 * kp) * 2 ^ (53 - dz (25 * kp)).
Proof.
  intros He Hk.
  assert (HT4 : 2 ^ (4 - e) = 32 * 2 ^ (- e - 1)).
  { replace (4 - e) with (5 + (- e - 1)) by lia. rewrite Z.pow_add_r by lia. reflexivity. }
  assert (HT1 : 2 ^ (- e) = 2 * 2 ^ (- e - 1)).
  { rewrite <- Z.pow_succ_r by lia. f_equal. lia. }
  assert (Hdk : dz kp <= - e) by (apply dz_le_of_lt; lia).
  assert (Hd25 : dz (25 * kp) <= 4 - e) by (apply dz_le_of_lt; lia).
  pose proof (dz_pos kp). pose proof (dz_pos (25 * kp)).
  destruct (binary_round_exact s kp e) as (Mk & HMk & HMkv & _); [lia | lia |].
  destruct (binary_round_exact s (25 * kp) 0) as (M & _ & HMv & HMd); [lia | lia |].
  exists M. split; [| exact HMv].
  rewrite HMk.
  rewrite (mul_exact s false Mk M50 M (e + dz kp - 53) (-46) (48 + dz (25 * kp) - dz kp) HMd).
  - f_equal; [destruct s; reflexivity | lia].
  - lia.
  - rewrite HMkv, HMv. change (Zpos M50) with (25 * 2 ^ 48).
    rewrite Pos2Z.inj_mul. 
    assert (E : 2 ^ (53 - dz kp) * 2 ^ 48 =
                2 ^ (53 - dz (25 * kp)) * 2 ^ (48 + dz (25 * kp) - dz kp)).
    { rewrite <- !Z.pow_add_r by lia. f_equal. lia. }
    transitivity (25 * Zpos kp * (2 ^ (53 - dz kp) * 2 ^ 48)); [ring |].
    rewrite E. ring.
  - lia.
Qed.

Lemma scaled_bounds (d : float) (k e : Z) :
  -47 <= e < 0 -> - 2 ^ (- e - 1) <= k < 2 ^ (- e - 1) ->
  Prim2SF d = binary_normalize prec emax k e false ->
  (-50 <=? d * 100)%float = true /\ (d * 100 <? 50)%float = true.
Proof.
  intros He Hk Hd.
  rewrite FloatAxioms.leb_spec, FloatAxioms.ltb_spec, FloatAxioms.mul_spec, Hd.
  change (Prim2SF 100) with (S754_finite false M50 (-46)).
  change (Prim2SF 50) with (S754_finite false M50 (-47)).
  change (Prim2SF (-50)) with (S754_finite true M50 (-47)).
  unfold FloatAxioms.SF64mul.
  destruct k as [| kp | kp].
  - split; reflexivity.
  - simpl binary_normalize.
    destruct (scaled_product false kp e He) as (M & HM & HMv); [lia |].
    rewrite HM.
    destruct (scaled_against_50 (25 * kp) M (Zpos kp) e He) as (Hle & Heq);
      [lia | reflexivity | exact HMv |].
    split; [reflexivity |].
    unfold SFltb, SFcompare.
    destruct (Z.compare_spec (e + dz (25 * kp) - 51) (-47)) as [E | L | G].
    + assert (X : dz (25 * kp) = 4 - e) by (clear - E; lia).
      destruct (Heq X) as [_ Hlt].
      assert (Y : Z.pos kp < 2 ^ (- e - 1)) by (clear - Hk; lia).
      specialize (Hlt Y). apply Z.compare_lt_iff in Hlt.
      rewrite Pos.compare_cont_spec. unfold Pos.switch_Eq.
      rewrite Pos2Z.inj_compare, Hlt. reflexivity.
    + reflexivity.
    + clear - G Hle. lia.
  - simpl binary_normalize.
    destruct (scaled_product true kp e He) as (M & HM & HMv); [lia |].
    rewrite HM.
    destruct (scaled_against_50 (25 * kp) M (Zpos kp) e He) as (Hle & Heq);
      [lia | reflexivity | exact HMv |].
    split; [| reflexivity].
    unfold SFleb, SFcompare.
    destruct (Z.compare_spec (-47) (e + dz (25 * kp) - 51)) as [E | L | G].
    + assert (X : dz (25 * kp) = 4 - e) by (clear - E; lia).
      destruct (Heq X) as [Hm _].
      rewrite Pos.compare_cont_spec. unfold Pos.switch_Eq.
      rewrite Pos2Z.inj_compare.
      destruct (Z.compare_spec (Zpos M50) (Zpos M)) as [C | C | C]; try reflexivity.
      exfalso. apply (Z.lt_irrefl (Zpos M)).
      apply Z.le_lt_trans with (Zpos M50); [exact Hm | exact C].
    + clear - L Hle. lia.
    + reflexivity.
Qed.

(** For a finite pitch value of 32 or more, the tuning error computed by
    lines 86-87 is at least -50 and below 50. *)
Lemma cents_bounds (p : float) :
  (32 <=? p)%float = true -> (p <? infinity)%float = true ->
  let c := ((p - Math_round p) * 100)%float in
  (-50 <=? c)%float = true /\ (c <? 50)%float = true.
Proof.
  intros Hlo Hhi c. subst c.
  rewrite FloatAxioms.leb_spec in Hlo. rewrite FloatAxioms.ltb_spec in Hhi.
  change (Prim2SF 32) with (S754_finite false 4503599627370496 (-47)) in Hlo.
  change (Prim2SF infinity) with (S754_infinity false) in Hhi.
  destruct (Prim2SF p) as [s | s | | s m e] eqn:Hp.
  - destruct s; discriminate.
  - destruct s; discriminate.
  - discriminate.
  - destruct s; [discriminate |].
    assert (He : -47 <= e).
    { unfold SFleb, SFcompare in Hlo.
      destruct (Z.compare_spec (-47) e); try lia; discriminate. }
    destruct (Z_lt_le_dec e 0) as [Hneg | Hnn].
    + destruct (round_diff p m e Hp) as (n & k & _ & _ & _ & Hk & Hd); [lia |].
      apply (scaled_bounds _ k e); [lia | exact Hk | exact Hd].
    + assert (Hr : Math_round p = p).
      { unfold Math_round. rewrite Hp.
        destruct (0 <=? e) eqn:E0; [reflexivity | apply Z.leb_gt in E0; lia]. }
      rewrite Hr.
      assert (Hz : Prim2SF (p - p)%float = S754_zero false).
      { rewrite FloatAxioms.sub_spec, Hp. unfold FloatAxioms.SF64sub, SFsub.
        rewrite Z.min_id. unfold shl_align. rewrite Z.sub_diag. cbn [fst cond_Zopp].
        reflexivity. }
      rewrite FloatAxioms.leb_spec, FloatAxioms.ltb_spec, FloatAxioms.mul_spec, Hz.
      split; reflexivity.
Qed.

(** [Math.round] of a finite pitch value of 32 or more, [m * 2^e]: the
    integer [n] with [n - 1/2 <= m * 2^e < n + 1/2], read as a number. *)
Lemma round_nearest (p : float) :
  (32 <=? p)%float = true -> (p <? infinity)%float = true ->
  exists (n : Z) (m : positive) (e : Z),
    Prim2SF p = S754_finite false m e /\
    (e < 0 ->
       Math_round p = of_uint63 (Uint63.of_Z n) /\ 32 <= n /\
       (2 * n - 1) * 2 ^ (- e) <= 2 * Zpos m < (2 * n + 1) * 2 ^ (- e)) /\
    (0 <= e -> Math_round p = p).
Proof.
  intros Hlo Hhi.
  rewrite FloatAxioms.leb_spec in Hlo. rewrite FloatAxioms.ltb_spec in Hhi.
  change (Prim2SF 32) with (S754_finite false 4503599627370496 (-47)) in Hlo.
  change (Prim2SF infinity) with (S754_infinity false) in Hhi.
  destruct (Prim2SF p) as [s | s | | s m e] eqn:Hp.
  - destruct s; discriminate.
  - destruct s; discriminate.
  - discriminate.
  - destruct s; [discriminate |].
    assert (He : -47 <= e).
    { unfold SFleb, SFcompare in Hlo.
      destruct (Z.compare_spec (-47) e); try lia; discriminate. }
    destruct (Z_lt_le_dec e 0) as [Hneg | Hnn].
    + destruct (round_diff p m e Hp) as (n & k & Hr & Hn & Hk & Hkb & _); [lia |].
      exists n, m, e. split; [reflexivity | split; [| lia]].
      intros _. split; [| split; [exact Hn |]].
      * rewrite Hr. unfold Z2F.
        destruct (n <? 0) eqn:En; [apply Z.ltb_lt in En; lia | reflexivity].
      * assert (HT : 2 ^ (- e) = 2 * 2 ^ (- e - 1)).
        { rewrite <- Z.pow_succ_r by lia. f_equal. lia. }
        rewrite Hk in Hkb. rewrite HT in *.
        replace (n * (2 * 2 ^ (- e - 1))) with (2 * (n * 2 ^ (- e - 1))) in Hkb by ring.
        replace ((2 * n - 1) * (2 * 2 ^ (- e - 1)))
          with (4 * (n * 2 ^ (- e - 1)) - 2 * 2 ^ (- e - 1)) by ring.
        replace ((2 * n + 1) * (2 * 2 ^ (- e - 1)))
          with (4 * (n * 2 ^ (- e - 1)) + 2 * 2 ^ (- e - 1)) by ring.
        lia.
    + exists 0, m, e. split; [reflexivity | split; [lia |]].
      intros _. unfold Math_round. rewrite Hp.
      destruct (0 <=? e) eqn:E0; [reflexivity | apply Z.leb_gt in E0; lia].
Qed.

(** [Math.log] is implementation-approximated.  At the two arguments that
    the frame on 452.8929841231363 Hz reaches, 2 and
    452.8929841231363 / 440, its values are the binary64 numbers nearest to
    ln 2 and to ln 1.0293022366434916. *)
Definition Math_log_sample (x : float) : float :=
  if (x =? 2)%float then 0.6931471805599453%float
  else if (x =? 1.0293022366434916)%float then 0.028881132523330667%float
  else nan.

(** The pitch value on 452.8929841231363 Hz does not depend on the last
    digits of the two logarithms: with [Math.log(2)] one unit in the last
    place more or less, and [Math.log(1.0293022366434916)] two units more
    or less, line 85 gives 69.5 as well. *)
Example tie_frequency_is_robust :
  Forall (fun l2 =>
            Forall (fun l1 => (12 * (l1 / l2) + 69)%float = 69.5%float)
              [0.02888113252333066%float; 0.028881132523330664%float;
               0.028881132523330667%float; 0.02888113252333067%float;
               0.028881132523330674%float])
    [0.6931471805599452%float; 0.6931471805599453%float;
     0.6931471805599454%float].
Proof. repeat constructor. Qed.

(** C5, as stated, fails.  On a frame at 452.8929841231363 Hz, in the vocal
    range, a quarter tone above A4, the pitch value computed by line 85 is
    exactly 69.5; [Math.round] takes the tie up to 70 and the tuning error
    is exactly -50 cents, which is not in (-50, +50]. *)
Lemma tie_frequency_is_minus_50 :
  let f := 452.8929841231363%float in
  let a' := detectPitch Math_log_sample f
              {| currentFreq := 0; centsOff := 0; userMidi := None |} in
  (80 <? f)%float = true /\ (f <? 1200)%float = true /\
  (f / 440)%float = 1.0293022366434916%float /\
  midiFloat Math_log_sample f = 69.5%float /\
  userMidi a' = Some 70%float /\
  centsOff a' = (-50)%float /\
  (-50 <? centsOff a')%float = false.
Proof. cbv zeta. vm_compute. repeat split. Qed.

(** C5, amended, on the binary64 numbers of the code: for a frequency of
    the vocal range whose pitch value
    p = 12 * (Math.log(f / 440) / Math.log(2)) + 69 is a finite number of
    32 or more (for 80 < f < 1200 it is between 39 and 87 as soon as
    [Math.log] is accurate to a few digits), the pitch code is
    [Math.round(p)], which is the integer n with n - 1/2 <= p < n + 1/2
    (p itself when p is 2^52 or more), the tuning error is
    [(p - Math.round(p)) * 100], and it lies in the half-open interval
    [-50, +50): at least -50 (reached at the ties, which round up) and
    strictly below +50. *)
Theorem cents_range (Math_log : float -> float) (frequency : float) (a : Audio) :
  let p := (12 * (Math_log (frequency / 440) / Math_log 2) + 69)%float in
  let a' := detectPitch Math_log frequency a in
  (80 <? frequency)%float = true -> (frequency <? 1200)%float = true ->
  (32 <=? p)%float = true -> (p <? infinity)%float = true ->
  userMidi a' = Some (Math_round p) /\
  centsOff a' = ((p - Math_round p) * 100)%float /\
  (-50 <=? centsOff a')%float = true /\
  (centsOff a' <? 50)%float = true /\
  (exists (n : Z) (m : positive) (e : Z),
     Prim2SF p = S754_finite false m e /\
     (e < 0 ->
        userMidi a' = Some (of_uint63 (Uint63.of_Z n)) /\ 32 <= n /\
        (2 * n - 1) * 2 ^ (- e) <= 2 * Zpos m < (2 * n + 1) * 2 ^ (- e)) /\
     (0 <= e -> userMidi a' = Some p)).
Proof.
  intros p a' H80 H1200 Hlo Hhi.
  assert (E : a' = {| currentFreq := frequency;
                      centsOff := ((p - Math_round p) * 100)%float;
                      userMidi := Some (Math_round p) |}).
  { subst a'. unfold detectPitch, inVocalRange, midiFloat. rewrite H80, H1200.
    reflexivity. }
  rewrite E. cbn [userMidi centsOff].
  destruct (cents_bounds p Hlo Hhi) as [Hge Hlt].
  split; [reflexivity | split; [reflexivity | split; [exact Hge | split; [exact Hlt |]]]].
  destruct (round_nearest p Hlo Hhi) as (n & m & e & Hp & Hneg & Hnn).
  exists n, m, e. split; [exact Hp | split].
  - intros He. destruct (Hneg He) as (Hr & Hn & Hb).
    split; [rewrite Hr; reflexivity | split; assumption].
  - intros He. rewrite (Hnn He). reflexivity.
Qed.

Lemma cents_range_witness :
  let p := 69.5%float in
  let a' := detectPitch Math_log_sample 452.8929841231363%float
              {| currentFreq := 0; centsOff := 0; userMidi := None |} in
  userMidi a' = Some (Math_round p) /\
  centsOff a' = ((p - Math_round p) * 100)%float /\
  (-50 <=? centsOff a')%float = true /\
  (centsOff a' <? 50)%float = true /\
  (exists (n : Z) (m : positive) (e : Z),
     Prim2SF p = S754_finite false m e /\
     (e < 0 ->
        userMidi a' = Some (of_uint63 (Uint63.of_Z n)) /\ 32 <= n /\
        (2 * n - 1) * 2 ^ (- e) <= 2 * Zpos m < (2 * n + 1) * 2 ^ (- e)) /\
     (0 <= e -> userMidi a' = Some p)).
Proof.
  cbv zeta.
  apply (cents_range Math_log_sample 452.8929841231363%float
           {| currentFreq := 0; centsOff := 0; userMidi := None |});
    reflexivity.
Defined.

End TuningError.



(** * The rest of the application *)

(** ** src/App.tsx: the handlers that change the game state *)

Module Handlers.
Import JS Types App.
Local Open Scope Z_scope.

(** Line 202: the mode button. *)
Definition toggleMode (g : Game) : Game :=
  {| song := song g; currentIndex := currentIndex g;
     gameMode := match gameMode g with EASY => HARD | HARD => EASY end;
     isListening := isListening g; completed := completed g;
     matchDuration := matchDuration g |}.

(** Lines 36-58: [startListening]; [granted] tells whether the microphone
    was obtained (otherwise the handler only reports an error). *)
Definition startListening (granted : bool) (g : Game) : Game :=
  {| song := song g; currentIndex := currentIndex g; gameMode := gameMode g;
     isListening := if granted then true else isListening g;
     completed := completed g; matchDuration := matchDuration g |}.

(** Lines 60-71: [stopListening], on the game state. *)
Definition stopListening (g : Game) : Game :=
  {| song := song g; currentIndex := currentIndex g; gameMode := gameMode g;
     isListening := false; completed := completed g;
     matchDuration := matchDuration g |}.

(** The song is replaced, the index and the completed flag are reset
    (lines 152-154 and 172-174); [matchDurationRef] is not touched. *)
Definition loadSong (s : Song) (g : Game) : Game :=
  {| song := Some s; currentIndex := 0; gameMode := gameMode g;
     isListening := isListening g; completed := false;
     matchDuration := matchDuration g |}.

(** Lines 147-161: [reader.onload] of [handleFileUpload], given the name for
    the title and the outcome of [parseMusicXML]: [None] when it threw. *)
Definition handleFileUpload (name : string) (parsed : option (list Note))
    (g : Game) : Game :=
  match parsed with
  | Some (n :: ns) => loadSong {| title := name; notes := n :: ns |} g
  | Some [] => g
  | None => g
  end.

(** Lines 166-180: [handleGenerate], given the outcome of [generateSong]:
    [None] when it was rejected. *)
Definition handleGenerate (generated : option Song) (g : Game) : Game :=
  match generated with
  | Some s => loadSong s g
  | None => g
  end.

(** Line 289: the "Change Song" button. *)
Definition changeSong (g : Game) : Game :=
  {| song := None; currentIndex := currentIndex g; gameMode := gameMode g;
     isListening := isListening g; completed := completed g;
     matchDuration := matchDuration g |}.

(** What can happen to the game state. *)
Inductive Event :=
| Effect (a : Audio)            (* a run of the game-loop effect *)
| ToggleMode
| StartListening (granted : bool)
| StopListening
| FileUpload (name : string) (parsed : option (list Note))
| Generate (generated : option Song)
| ChangeSong
| Restart (granted : bool).

Definition handle (e : Event) (g : Game) : Game :=
  match e with
  | Effect a => gameLoop a g
  | ToggleMode => toggleMode g
  | StartListening granted => startListening granted g
  | StopListening => stopListening g
  | FileUpload name parsed => handleFileUpload name parsed g
  | Generate generated => handleGenerate generated g
  | ChangeSong => changeSong g
  | Restart granted => restart granted g
  end.

Definition play (events : list Event) (g : Game) : Game :=
  fold_left (fun st e => handle e st) events g.

(** Lines 12-16 and 33: the state the component starts with. *)
Definition initial : Game :=
  {| song := None; currentIndex := 0; gameMode := EASY;
     isListening := false; completed := false; matchDuration := 0 |}.

End Handlers.

(** ** The game state over whole sessions (App.tsx) *)

Section Session.
Import App Handlers.
Local Open Scope Z_scope.

Definition songLength (s : Song) : Z := Z.of_nat (length (notes s)).

(** What every state of a session satisfies. *)
Definition inBounds (g : Game) : Prop :=
  In (matchDuration g) holdValues /\
  0 <= currentIndex g /\
  forall s, song g = Some s ->
    currentIndex g <= Z.max 0 (songLength s - 1) /\
    (notes s <> [] -> exists targetNote,
        note_at (notes s) (currentIndex g) = Some targetNote) /\
    (completed g = true -> currentIndex g = songLength s - 1 /\ notes s <> []).

Lemma note_at_defined (ns : list Note) (i : Z) :
  0 <= i < Z.of_nat (length ns) -> exists t, note_at ns i = Some t.
Proof.
  intros Hi. unfold note_at. destruct (i <? 0) eqn:E; [lia |].
  destruct (nth_error ns (Z.to_nat i)) as [t|] eqn:En; [eauto |].
  apply nth_error_None in En. lia.
Qed.

Lemma note_at_range (ns : list Note) (i : Z) (t : Note) :
  note_at ns i = Some t -> 0 <= i < Z.of_nat (length ns).
Proof.
  unfold note_at. destruct (i <? 0) eqn:E; [discriminate |]. intros H.
  assert (Hn : nth_error ns (Z.to_nat i) <> None) by congruence.
  apply nth_error_Some in Hn. lia.
Qed.

(** A run of the effect either leaves the state alone or is the threshold
    test on some accumulated time, with a target note in hand. *)
Lemma gameLoop_cases a g :
  gameLoop a g = g \/
  exists s targetNote um,
    playing g s targetNote /\ userMidi a = Some um /\
    gameLoop a g =
      advance s (accumulate (onTarget (gameMode g) targetNote um (centsOff a))
                            (matchDuration g)) g.
Proof.
  unfold gameLoop.
  destruct (song g) as [s|] eqn:Hs; [| left; reflexivity].
  destruct (userMidi a) as [um|] eqn:Hu; [| left; reflexivity].
  destruct (completed g) eqn:Hc; [left; reflexivity |].
  destruct (isListening g) eqn:Hl; [| left; reflexivity]. simpl.
  destruct (note_at (notes s) (currentIndex g)) as [t|] eqn:Hn; [| left; reflexivity].
  right. exists s, t, um. repeat split; assumption.
Qed.

Lemma nonempty_length (ns : list Note) : ns <> [] <-> 1 <= Z.of_nat (length ns).
Proof. destruct ns; simpl; split; intros; try congruence; lia. Qed.

Lemma inBounds_song_rule (g : Game) (i : Z) (c : bool) (s : Song) :
  0 <= i -> i <= Z.max 0 (songLength s - 1) ->
  (c = true -> i = songLength s - 1 /\ notes s <> []) ->
  i <= Z.max 0 (songLength s - 1) /\
  (notes s <> [] -> exists targetNote, note_at (notes s) i = Some targetNote) /\
  (c = true -> i = songLength s - 1 /\ notes s <> []).
Proof.
  intros H0 Hle Hc. split; [exact Hle | split; [| exact Hc]].
  intros Hne. apply note_at_defined. apply nonempty_length in Hne.
  unfold songLength in Hle. lia.
Qed.

Lemma gameLoop_inBounds a g : inBounds g -> inBounds (gameLoop a g).
Proof.
  intros (Hh & H0 & Hs).
  split; [apply gameLoop_hold_values, Hh |].
  destruct (gameLoop_cases a g) as [E | (s & t & um & Hp & Hu & E)].
  - rewrite E. split; assumption.
  - rewrite E. destruct Hp as (Hsong & Hc & Hl & Hn).
    pose proof (note_at_range _ _ _ Hn) as Hr.
    assert (Hne : notes s <> []) by (apply nonempty_length; lia).
    unfold advance.
    destruct (_ >? _).
    + destruct (currentIndex g <? Z.of_nat (length (notes s)) - 1) eqn:El;
        cbn [song currentIndex completed]; (split; [lia |]);
        intros s' Hs'; rewrite Hsong in Hs'; injection Hs' as <-;
        apply (inBounds_song_rule g); unfold songLength; try lia.
      * intros Hf. congruence.
      * intros _. split; [lia | exact Hne].
    + cbn [song currentIndex completed]. split; [exact H0 | exact Hs].
Qed.

Lemma handle_inBounds e g : inBounds g -> inBounds (handle e g).
Proof.
  intros Hg. destruct e as [a | | granted | | name parsed | generated | | granted];
    cbn [handle].
  - apply gameLoop_inBounds, Hg.
  - exact Hg.
  - exact Hg.
  - exact Hg.
  - destruct parsed as [[|n ns] |]; cbn [handleFileUpload]; try exact Hg.
    destruct Hg as (Hh & H0 & Hs).
    split; [exact Hh | split; [cbn; lia |]].
    intros s' [= <-]. apply (inBounds_song_rule g); cbn; try lia; try discriminate.
  - destruct generated as [s|]; cbn [handleGenerate]; try exact Hg.
    destruct Hg as (Hh & H0 & Hs).
    split; [exact Hh | split; [cbn; lia |]].
    intros s' [= <-]. apply (inBounds_song_rule g); cbn; try lia; try discriminate.
  - destruct Hg as (Hh & H0 & Hs). split; [exact Hh | split; [exact H0 |]].
    intros s' Hs'. discriminate.
  - destruct Hg as (Hh & H0 & Hs). split; [left; reflexivity | split; [cbn; lia |]].
    intros s' Hs'. cbn in Hs'. apply (inBounds_song_rule g); cbn; try lia; try discriminate.
Qed.

(** X1: whatever happens in a session (runs of the effect on any
    observations, mode changes, start and stop, uploads and generations that
    succeed or fail, song changes, restarts), the accumulated match time is
    one of 0, 16, ..., 80, the index is never negative and never past the
    last note of the loaded song, a song that has notes always has a target
    note at the index, and [completed] is only ever true at the last note. *)
Theorem session_in_bounds (events : list Event) : inBounds (play events initial).
Proof.
  assert (Hgen : forall es g, inBounds g -> inBounds (play es g)).
  { induction es as [|e es IH]; intros g Hg; simpl; [exact Hg |].
    apply IH, handle_inBounds, Hg. }
  apply Hgen. split; [left; reflexivity | split; [cbn; lia |]].
  intros s Hs. discriminate.
Qed.

Lemma with_hold_with_hold h1 h2 g : with_hold h2 (with_hold h1 g) = with_hold h2 g.
Proof. reflexivity. Qed.

Lemma gameLoop_small a g :
  0 <= matchDuration g ->
  matchDuration g + 16 <= requiredHoldTime (gameMode g) ->
  exists h, gameLoop a g = with_hold h g /\ 0 <= h <= matchDuration g + 16.
Proof.
  intros H0 Hle.
  destruct (gameLoop_cases a g) as [E | (s & t & um & Hp & Hu & E)].
  - exists (matchDuration g). rewrite E, with_hold_same. split; [reflexivity | lia].
  - rewrite E.
    set (h := accumulate (onTarget (gameMode g) t um (centsOff a)) (matchDuration g)).
    assert (Hh : 0 <= h <= matchDuration g + 16).
    { subst h. unfold accumulate. destruct (onTarget _ _ _ _); lia. }
    exists h. split; [apply advance_below; lia | exact Hh].
Qed.

(** X2: the hold time is a real lower bound on the time a note takes.
    Whatever is observed, as long as 16 ms per run of the effect cannot yet
    exceed the required hold time (one run in Easy mode, five in Hard mode,
    from an accumulated time of 0), the index and the completed flag do not
    move: only the accumulated time changes. *)
Theorem too_few_runs_never_advance (obs : list Audio) : forall g,
  0 <= matchDuration g ->
  matchDuration g + 16 * Z.of_nat (length obs) <= requiredHoldTime (gameMode g) ->
  exists h,
    run obs g = with_hold h g /\
    0 <= h <= matchDuration g + 16 * Z.of_nat (length obs).
Proof.
  induction obs as [|a obs IH]; intros g H0 Hle.
  - exists (matchDuration g). simpl. rewrite with_hold_same. split; [reflexivity | lia].
  - simpl length in Hle. rewrite Nat2Z.inj_succ in Hle.
    destruct (gameLoop_small a g H0) as (h1 & E1 & Hh1); [lia |].
    simpl run. fold (run obs (gameLoop a g)). rewrite E1.
    destruct (IH (with_hold h1 g)) as (h & E & Hh).
    + cbn. lia.
    + cbn [with_hold matchDuration gameMode]. lia.
    + exists h. rewrite E, with_hold_with_hold. cbn [with_hold matchDuration] in Hh.
      split; [reflexivity |]. simpl length. rewrite Nat2Z.inj_succ. lia.
Qed.

Lemma too_few_runs_never_advance_witness :
  let noise := [heard 60%float 0%float; silence 3%float; heard 61%float 40%float;
                heard 60%float 10%float; heard 60%float (-20)%float] in
  exists h,
    run noise (playingAt 0 HARD 0) = with_hold h (playingAt 0 HARD 0) /\
    0 <= h <= 0 + 16 * 5.
Proof.
  cbv zeta.
  apply (too_few_runs_never_advance
           [heard 60%float 0%float; silence 3%float; heard 61%float 40%float;
            heard 60%float 10%float; heard 60%float (-20)%float]
           (playingAt 0 HARD 0)).
  - cbn. lia.
  - cbn. lia.
Defined.

Lemma gameLoop_progress a g :
  currentIndex g <= currentIndex (gameLoop a g) <= currentIndex g + 1 /\
  (completed g = true -> completed (gameLoop a g) = true) /\
  song (gameLoop a g) = song g /\
  gameMode (gameLoop a g) = gameMode g /\
  (currentIndex (gameLoop a g) <> currentIndex g \/
   completed (gameLoop a g) <> completed g -> matchDuration (gameLoop a g) = 0).
Proof.
  destruct (gameLoop_cases a g) as [E | (s & t & um & Hp & Hu & E)]; rewrite E.
  - repeat split; try lia; try tauto.
  - unfold advance. destruct (_ >? _); [destruct (_ <? _) |];
      cbn [song currentIndex completed gameMode matchDuration];
      repeat split; try lia; try tauto; try reflexivity.
Qed.

(** X3: over any run of the effect the index never goes back and moves by
    at most one note per run, a completed song stays completed, the song and
    the mode are not touched, and a run that moves the index or completes
    the song leaves the accumulated match time at 0. *)
Theorem run_progress (obs : list Audio) : forall g,
  currentIndex g <= currentIndex (run obs g) <= currentIndex g + Z.of_nat (length obs) /\
  (completed g = true -> completed (run obs g) = true) /\
  song (run obs g) = song g /\
  gameMode (run obs g) = gameMode g /\
  (forall a,
     currentIndex (gameLoop a g) <> currentIndex g \/
     completed (gameLoop a g) <> completed g ->
     matchDuration (gameLoop a g) = 0).
Proof.
  induction obs as [|a obs IH]; intros g.
  - simpl. repeat split; try lia; try tauto.
    intros a. apply (gameLoop_progress a g).
  - simpl run. fold (run obs (gameLoop a g)).
    destruct (gameLoop_progress a g) as (H1 & H2 & H3 & H4 & _).
    destruct (IH (gameLoop a g)) as (I1 & I2 & I3 & I4 & _).
    simpl length. rewrite Nat2Z.inj_succ.
    repeat split; try lia; try tauto; try congruence.
    intros a'. apply (gameLoop_progress a' g).
Qed.

End Session.

(** ** Singing a song through (App.tsx, lines 101-139) *)

Section Performance.
Import App Handlers.
Local Open Scope Z_scope.












(** The accumulated time is not above the required hold time of the
    current mode. *)
Definition settled (g : Game) : Prop :=
  matchDuration g <= requiredHoldTime (gameMode g).

(** X6: every run of the effect ends settled if it started settled, and in
    a settled state a run on a detected pitch that is no hit neither moves
    the index nor completes the song: it only lowers the accumulated time
    by 16 ms, not below 0. *)
Theorem miss_never_advances (a : Audio) (g : Game) (s : Song) (targetNote : Note)
    (um : float) :
  settled g ->
  playing g s targetNote -> userMidi a = Some um ->
  onTarget (gameMode g) targetNote um (centsOff a) = false ->
  gameLoop a g = with_hold (Z.max 0 (matchDuration g - 16)) g /\
  (forall a', settled (gameLoop a' g)).
Proof.
  intros Hset Hp Hu Hmiss. unfold settled in *. split.
  - rewrite (gameLoop_playing a g s targetNote um Hp Hu), Hmiss.
    apply advance_below. unfold accumulate.
    destruct (gameMode g); cbn [requiredHoldTime] in *; lia.
  - intros a'.
    destruct (gameLoop_cases a' g) as [E | (s' & t' & um' & Hp' & Hu' & E)];
      rewrite E; [exact Hset |].
    unfold advance. destruct (_ >? _) eqn:Eabove; [destruct (_ <? _) |];
      cbn [gameMode matchDuration]; try (destruct (gameMode g); cbn; lia).
    lia.
Qed.

Lemma miss_never_advances_witness :
  gameLoop (heard 61%float 0%float) (playingAt 0 HARD 80) =
    with_hold (Z.max 0 (80 - 16)) (playingAt 0 HARD 80) /\
  (forall a', settled (gameLoop a' (playingAt 0 HARD 80))).
Proof.
  apply (miss_never_advances (heard 61%float 0%float) (playingAt 0 HARD 80)
           twoNotes noteC4 61%float).
  - unfold settled. cbn. lia.
  - repeat split.
  - reflexivity.
  - reflexivity.
Defined.

(** X7: the mode button can unsettle the state.  After a switch from Hard
    to Easy with more than 36 ms accumulated, the next run of the effect on
    a detected pitch that is no hit lowers the time to a value still above
    Easy's 20 ms and so moves on to the next note (or completes the song):
    a note is passed on a miss. *)
Theorem miss_after_mode_switch_advances (a : Audio) (g : Game) (s : Song)
    (targetNote : Note) (um : float) :
  playing g s targetNote -> gameMode g = HARD -> 36 < matchDuration g ->
  userMidi a = Some um ->
  onTarget EASY targetNote um (centsOff a) = false ->
  gameLoop a (toggleMode g) =
    if currentIndex g <? songLength s - 1
    then {| song := song g; currentIndex := currentIndex g + 1; gameMode := EASY;
            isListening := isListening g; completed := false;
            matchDuration := 0 |}
    else {| song := song g; currentIndex := currentIndex g; gameMode := EASY;
            isListening := false; completed := true; matchDuration := 0 |}.
Proof.
  intros Hp Hm Hh Hu Hmiss.
  assert (Hp' : playing (toggleMode g) s targetNote) by exact Hp.
  rewrite (gameLoop_playing a (toggleMode g) s targetNote um Hp' Hu).
  cbn [toggleMode gameMode matchDuration]. rewrite Hm, Hmiss.
  unfold accumulate, advance.
  cbn [gameMode requiredHoldTime song currentIndex isListening completed].
  assert (Habove : (Z.max 0 (matchDuration g - 16) >? 20) = true).
  { apply Z.gtb_lt. lia. }
  unfold toggleMode.
  cbn [gameMode requiredHoldTime song currentIndex isListening completed].
  rewrite Hm. cbn [requiredHoldTime]. rewrite Habove.
  destruct Hp as (_ & Hc & _ & _). rewrite Hc. unfold songLength.
  destruct (currentIndex g <? _); reflexivity.
Qed.

Lemma miss_after_mode_switch_advances_witness :
  gameLoop (heard 61%float 0%float) (toggleMode (playingAt 0 HARD 48)) =
    playingAt 1 EASY 0.
Proof.
  apply (miss_after_mode_switch_advances (heard 61%float 0%float)
           (playingAt 0 HARD 48) twoNotes noteC4 61%float).
  - repeat split.
  - reflexivity.
  - cbn. lia.
  - reflexivity.
  - reflexivity.
Defined.

End Performance.

(** ** src/App.tsx, line 139: when the game-loop effect runs

    The effect has a dependency array.  React runs it after a render in
    which one of the dependencies is not the same value ([Object.is]) as in
    the render before; the state updates of one callback are applied
    together, in one render.  The effect itself sets state when it advances
    or completes, which renders again and runs it again, on the same
    observation.  [matchDurationRef] is a ref: changing it renders
    nothing. *)

Module Scheduler.
Import JS Types App Handlers.
Local Open Scope Z_scope.

(** [Object.is] on two numbers: [NaN] is the same as [NaN], [0] is not the
    same as [-0]. *)
Definition sameNumber (x y : float) : bool :=
  (is_nan x && is_nan y) ||
  ((x =? y)%float && Bool.eqb (1 / x <? 0)%float (1 / y <? 0)%float).

Definition sameMidi (x y : option float) : bool :=
  match x, y with
  | None, None => true
  | Some m, Some m' => sameNumber m m'
  | _, _ => false
  end.

Definition sameMode (m m' : GameMode) : bool :=
  match m, m' with
  | EASY, EASY | HARD, HARD => true
  | _, _ => false
  end.

(** What a render hands to the effect: the observation, the game state,
    and which song object the state holds (every upload and every
    generation builds a new object, and the dependency is compared by
    identity). *)
Record View := {
  audio : Audio;
  game : Game;
  songObject : nat
}.

Definition sameAudio (a a' : Audio) : bool :=
  sameNumber (currentFreq a) (currentFreq a') &&
  sameMidi (userMidi a) (userMidi a') &&
  sameNumber (centsOff a) (centsOff a').

Definition sameProgress (g g' : Game) : bool :=
  (currentIndex g =? currentIndex g') && sameMode (gameMode g) (gameMode g') &&
  Bool.eqb (isListening g) (isListening g') &&
  Bool.eqb (completed g) (completed g').

Definition sameSong (v v' : View) : bool :=
  match song (game v), song (game v') with
  | None, None => true
  | Some _, Some _ => Nat.eqb (songObject v) (songObject v')
  | _, _ => false
  end.

(** Line 139: [currentFreq, userMidi, centsOff, currentIndex, song,
    gameMode, isListening, completed]. *)
Definition sameDeps (v v' : View) : bool :=
  sameAudio (audio v) (audio v') && sameProgress (game v) (game v') &&
  sameSong v v'.

(** One run of the effect on what was rendered.  When it completes the
    song it calls [stopListening], which also sets [currentFreq] to 0
    (line 70). *)
Definition runEffect (v : View) : View :=
  let g' := gameLoop (audio v) (game v) in
  {| audio :=
       if completed g' && negb (completed (game v))
       then {| currentFreq := 0%float; centsOff := centsOff (audio v);
               userMidi := userMidi (audio v) |}
       else audio v;
     game := g';
     songObject := songObject v |}.

(** The renders that follow a state update: the effect runs when the
    dependencies differ from those of the render before, and again as long
    as its own updates change them. *)
Fixpoint commit (fuel : nat) (rendered next : View) : View :=
  match fuel with
  | O => next
  | S k =>
      if sameDeps rendered next then next
      else commit k next (runEffect next)
  end.

(** The state updates that come from outside the effect. *)
Inductive Event :=
| Frame (observed : Audio)   (* lines 83-94: what [detectPitch] sets *)
| NewSong (s : Song)         (* lines 152-154 and 172-174 *)
| NoSong                     (* line 289 *)
| SwitchMode.                (* line 202 *)

Definition update (e : Event) (v : View) : View :=
  match e with
  | Frame observed =>
      {| audio := observed; game := game v; songObject := songObject v |}
  | NewSong s =>
      {| audio := audio v; game := loadSong s (game v);
         songObject := S (songObject v) |}
  | NoSong =>
      {| audio := audio v; game := changeSong (game v);
         songObject := songObject v |}
  | SwitchMode =>
      {| audio := audio v; game := toggleMode (game v);
         songObject := songObject v |}
  end.

(** An update and the renders it causes.  Two runs of the effect are the
    most that can follow (see [second_run_settles]). *)
Definition step (e : Event) (v : View) : View := commit 3 v (update e v).

Definition play (events : list Event) (v : View) : View :=
  fold_left (fun st e => step e st) events v.

(** Every observation differs from the one before. *)
Fixpoint changing (previous : Audio) (obs : list Audio) : bool :=
  match obs with
  | [] => true
  | a :: rest => negb (sameAudio previous a) && changing a rest
  end.

End Scheduler.

Section Scheduling.
Import App Handlers Scheduler.
Local Open Scope Z_scope.

Lemma sameNumber_refl (x : float) : sameNumber x x = true.
Proof.
  unfold sameNumber, is_nan. destruct (x =? x)%float; simpl.
  - apply Bool.eqb_reflx.
  - reflexivity.
Qed.

Lemma sameAudio_refl (a : Audio) : sameAudio a a = true.
Proof.
  unfold sameAudio. destruct (userMidi a); simpl;
    rewrite !sameNumber_refl; reflexivity.
Qed.

Lemma sameProgress_with_hold (g : Game) (h : Z) : sameProgress g (with_hold h g) = true.
Proof.
  unfold sameProgress. simpl. rewrite Z.eqb_refl, !Bool.eqb_reflx.
  destruct (gameMode g); reflexivity.
Qed.

(** A run of the effect that only changes the accumulated time renders
    nothing new. *)
Lemma runEffect_quiet (v : View) (h : Z) :
  gameLoop (audio v) (game v) = with_hold h (game v) ->
  runEffect v = {| audio := audio v; game := with_hold h (game v);
                   songObject := songObject v |} /\
  sameDeps v (runEffect v) = true.
Proof.
  intros E. unfold runEffect. rewrite E. simpl completed.
  destruct (completed (game v)); simpl.
  - split; [reflexivity |]. unfold sameDeps. simpl.
    rewrite sameAudio_refl, sameProgress_with_hold. unfold sameSong. simpl.
    destruct (song (game v)); [apply Nat.eqb_refl | reflexivity].
  - split; [reflexivity |]. unfold sameDeps. simpl.
    rewrite sameAudio_refl, sameProgress_with_hold. unfold sameSong. simpl.
    destruct (song (game v)); [apply Nat.eqb_refl | reflexivity].
Qed.

(** After a run of the effect that changed a dependency, the next run
    changes none: the accumulated time is back to 0, and 16 is not above
    the required hold time of either mode. *)
Lemma second_run_settles (v : View) :
  sameDeps v (runEffect v) = false ->
  sameDeps (runEffect v) (runEffect (runEffect v)) = true.
Proof.
  intros Hd.
  destruct (gameLoop_cases (audio v) (game v)) as [E | (s & t & um & Hp & Hu & E)].
  - rewrite <- (with_hold_same (game v)) in E at 2.
    destruct (runEffect_quiet v _ E) as [_ H]. congruence.
  - unfold advance in E.
    set (h := accumulate (onTarget (gameMode (game v)) t um (centsOff (audio v)))
                         (matchDuration (game v))) in *.
    destruct (h >? requiredHoldTime (gameMode (game v))) eqn:Eh.
    + destruct (currentIndex (game v) <? Z.of_nat (length (notes s)) - 1) eqn:Ei.
      * assert (Hg2 : game (runEffect v) = gameLoop (audio v) (game v)) by reflexivity.
        destruct (gameLoop_small (audio (runEffect v)) (game (runEffect v)))
          as (h' & Eh' & _).
        { rewrite Hg2, E. simpl. lia. }
        { rewrite Hg2, E. simpl. destruct (gameMode (game v)); simpl; lia. }
        apply (runEffect_quiet (runEffect v) h' Eh').
      * assert (Hg2 : game (runEffect v) = gameLoop (audio v) (game v)) by reflexivity.
        assert (E2 : gameLoop (audio (runEffect v)) (game (runEffect v)) =
                     with_hold (matchDuration (game (runEffect v))) (game (runEffect v))).
        { rewrite with_hold_same. apply gameLoop_completed. rewrite Hg2, E. reflexivity. }
        apply (runEffect_quiet (runEffect v) _ E2).
    + fold (with_hold h (game v)) in E.
      destruct (runEffect_quiet v _ E) as [_ H]. congruence.
Qed.

(** What an update leads to: nothing more when no dependency changed, one
    run of the effect when that run changes no dependency, two runs
    otherwise. *)
Lemma step_runs (e : Event) (v : View) :
  step e v =
    if sameDeps v (update e v) then update e v
    else if sameDeps (update e v) (runEffect (update e v))
         then runEffect (update e v)
         else runEffect (runEffect (update e v)).
Proof.
  unfold step. cbn [commit].
  destruct (sameDeps v (update e v)); [reflexivity |].
  destruct (sameDeps (update e v) (runEffect (update e v))) eqn:E; [reflexivity |].
  rewrite (second_run_settles _ E). reflexivity.
Qed.


Lemma sameSong_refl (v : View) (a : Audio) (g : Game) :
  song g = song (game v) ->
  sameSong v {| audio := a; game := g; songObject := songObject v |} = true.
Proof.
  intros E. unfold sameSong. simpl. rewrite E.
  destruct (song (game v)); [apply Nat.eqb_refl | reflexivity].
Qed.

(** A frame runs the effect exactly when it changes the observation. *)
Lemma frame_deps (v : View) (a : Audio) :
  sameDeps v (update (Frame a) v) = sameAudio (audio v) a.
Proof.
  unfold sameDeps, update. cbn [audio game].
  rewrite <- (with_hold_same (game v)) at 2. rewrite sameProgress_with_hold.
  rewrite sameSong_refl by reflexivity.
  destruct (sameAudio (audio v) a); reflexivity.
Qed.

(** A frame on a hit that stays at or below the required hold time: one
    run of the effect, 16 ms more. *)
Lemma frame_hit (v : View) (s : Song) (t : Note) (a : Audio) :
  playing (game v) s t ->
  sameAudio (audio v) a = false ->
  hits (gameMode (game v)) t a = true ->
  matchDuration (game v) + 16 <= requiredHoldTime (gameMode (game v)) ->
  step (Frame a) v =
    {| audio := a; game := with_hold (matchDuration (game v) + 16) (game v);
       songObject := songObject v |}.
Proof.
  intros Hp Hd Hh Hle. rewrite step_runs, frame_deps, Hd.
  assert (E : gameLoop (audio (update (Frame a) v)) (game (update (Frame a) v)) =
              with_hold (matchDuration (game v) + 16) (game (update (Frame a) v))).
  { apply (gameLoop_hit a (game v) s t Hp Hh Hle). }
  destruct (runEffect_quiet _ _ E) as [Hr Hs]. rewrite Hs, Hr. reflexivity.
Qed.

Lemma last_cons {A} (l : list A) : forall a d, last (a :: l) d = last l a.
Proof.
  induction l as [|b l IH]; intros a d; [reflexivity |].
  change (last (a :: b :: l) d) with (last (b :: l) d).
  rewrite !IH. reflexivity.
Qed.

Lemma frames_hits (s : Song) (t : Note) (obs : list Audio) : forall v,
  playing (game v) s t ->
  Forall (fun a => hits (gameMode (game v)) t a = true) obs ->
  changing (audio v) obs = true ->
  matchDuration (game v) + 16 * Z.of_nat (length obs) <=
    requiredHoldTime (gameMode (game v)) ->
  play (map Frame obs) v =
    {| audio := last obs (audio v);
       game := with_hold (matchDuration (game v) + 16 * Z.of_nat (length obs)) (game v);
       songObject := songObject v |}.
Proof.
  induction obs as [|a obs IH]; intros v Hp Hf Hc Hle.
  - simpl. rewrite Z.add_0_r, with_hold_same. destruct v; reflexivity.
  - inversion Hf as [|a' obs' Ha Hf']; subst.
    cbn [changing] in Hc. apply andb_true_iff in Hc. destruct Hc as [Hc1 Hc2].
    apply negb_true_iff in Hc1.
    cbn [length] in *. rewrite Nat2Z.inj_succ in *.
    cbn [map play fold_left]. fold (play (map Frame obs) (step (Frame a) v)).
    rewrite (frame_hit v s t a Hp Hc1 Ha) by lia.
    rewrite IH.
    + cbn [audio game songObject with_hold matchDuration]. f_equal.
      * symmetry. apply last_cons.
      * unfold with_hold.
        cbn [song currentIndex gameMode isListening completed matchDuration].
        f_equal. lia.
    + exact Hp.
    + exact Hf'.
    + exact Hc2.
    + cbn [game with_hold matchDuration gameMode]. lia.
Qed.

(** A hit that takes the accumulated time above the required hold time on
    a note that is not the last: the effect advances, renders, and runs
    again on the same observation against the next note. *)
Lemma advance_runs_twice (v : View) (s : Song) (t next : Note) :
  playing (game v) s t ->
  hits (gameMode (game v)) t (audio v) = true ->
  requiredHoldTime (gameMode (game v)) < matchDuration (game v) + 16 ->
  currentIndex (game v) < Z.of_nat (length (notes s)) - 1 ->
  note_at (notes s) (currentIndex (game v) + 1) = Some next ->
  sameDeps v (runEffect v) = false /\
  runEffect (runEffect v) =
    {| audio := audio v;
       game := {| song := song (game v); currentIndex := currentIndex (game v) + 1;
                  gameMode := gameMode (game v); isListening := true;
                  completed := false;
                  matchDuration :=
                    if hits (gameMode (game v)) next (audio v) then 16 else 0 |};
       songObject := songObject v |}.
Proof.
  intros Hp Hh Hgt Hi Hn.
  pose proof Hp as (Hs & Hc & Hl & Ht).
  unfold hits in Hh. destruct (userMidi (audio v)) as [um|] eqn:Hu; [| discriminate].
  assert (E : gameLoop (audio v) (game v) =
              {| song := song (game v); currentIndex := currentIndex (game v) + 1;
                 gameMode := gameMode (game v); isListening := true;
                 completed := false; matchDuration := 0 |}).
  { rewrite (gameLoop_playing _ _ s t um Hp Hu), Hh. unfold accumulate, advance.
    destruct (matchDuration (game v) + 16 >? requiredHoldTime (gameMode (game v))) eqn:G;
      [| lia].
    apply Z.ltb_lt in Hi. rewrite Hi, Hl, Hc. reflexivity. }
  assert (R1 : runEffect v =
               {| audio := audio v;
                  game := {| song := song (game v);
                             currentIndex := currentIndex (game v) + 1;
                             gameMode := gameMode (game v); isListening := true;
                             completed := false; matchDuration := 0 |};
                  songObject := songObject v |}).
  { unfold runEffect. rewrite E. reflexivity. }
  split.
  - rewrite R1. unfold sameDeps, sameProgress. cbn [game currentIndex].
    replace (currentIndex (game v) =? currentIndex (game v) + 1) with false
      by (symmetry; apply Z.eqb_neq; lia).
    cbn [andb]. rewrite andb_false_r. reflexivity.
  - rewrite R1. unfold runEffect. cbn [audio game songObject].
    set (g2 := {| song := song (game v); currentIndex := currentIndex (game v) + 1;
                  gameMode := gameMode (game v); isListening := true;
                  completed := false; matchDuration := 0 |}).
    assert (Hp2 : playing g2 s next) by (repeat split; assumption).
    rewrite (gameLoop_playing _ g2 s next um Hp2 Hu).
    cbn [gameMode g2 matchDuration]. unfold hits. rewrite Hu.
    destruct (onTarget (gameMode (game v)) next um (centsOff (audio v)));
      unfold accumulate, advance; cbn [gameMode g2];
      destruct (gameMode (game v)); reflexivity.
Qed.

Lemma changing_app (obs : list Audio) : forall previous a,
  changing previous (obs ++ [a]) =
    changing previous obs && negb (sameAudio (last obs previous) a).
Proof.
  induction obs as [|b obs IH]; intros previous a.
  - simpl. rewrite andb_true_r. reflexivity.
  - change ((b :: obs) ++ [a]) with (b :: (obs ++ [a])). cbn [changing].
    rewrite IH, last_cons, andb_assoc. reflexivity.
Qed.

(** A new song object is a changed dependency. *)
Lemma new_song_deps (v : View) (s : Song) :
  sameDeps v (update (NewSong s) v) = false.
Proof.
  unfold sameDeps, sameSong, update. cbn [game song songObject loadSong].
  assert (E : Nat.eqb (songObject v) (S (songObject v)) = false)
    by (apply Nat.eqb_neq; lia).
  rewrite E. destruct (song (game v)); apply andb_false_r.
Qed.

Lemma playing_loaded (g : Game) (s : Song) (n1 : Note) (ns : list Note) :
  notes s = n1 :: ns -> isListening g = true -> playing (loadSong s g) s n1.
Proof.
  intros Hn Hl. repeat split; try assumption. simpl. rewrite Hn. reflexivity.
Qed.

(** X5: a new song inherits the accumulated match time of the old one, and
    its loading is itself a run of the effect.  Loading a song (upload or
    generation) resets the index and the completed flag but not
    [matchDurationRef], and, [song] being a dependency, runs the effect
    on the observation of the last frame.  In Hard mode with 80 ms
    accumulated on the old song and a new song of two notes or more: when
    the last frame detected no pitch, the 80 ms are kept and the first
    frame on a hit moves on to the second note at once; when the last
    frame detected a pitch that misses the new first note, the loading
    takes the accumulated time down to 64 ms; when it detected a pitch
    that hits the new first note, the loading alone moves on to the second
    note.  After an advance the effect runs once more on the same
    observation, against the second note. *)
Theorem new_song_inherits_hold (v : View) (s : Song) (n1 n2 : Note) (ns : list Note) :
  notes s = n1 :: n2 :: ns ->
  isListening (game v) = true ->
  gameMode (game v) = HARD ->
  matchDuration (game v) = 80 ->
  let g1 := loadSong s (game v) in
  let onSecond (a : Audio) :=
    {| song := Some s; currentIndex := 1; gameMode := HARD; isListening := true;
       completed := false;
       matchDuration := if hits HARD n2 a then 16 else 0 |} in
  matchDuration g1 = 80 /\
  (userMidi (audio v) = None ->
     step (NewSong s) v =
       {| audio := audio v; game := g1; songObject := S (songObject v) |} /\
     forall a, hits HARD n1 a = true ->
       game (step (Frame a) (step (NewSong s) v)) = onSecond a) /\
  (forall um, userMidi (audio v) = Some um -> hits HARD n1 (audio v) = false ->
     game (step (NewSong s) v) = with_hold 64 g1) /\
  (hits HARD n1 (audio v) = true ->
     game (step (NewSong s) v) = onSecond (audio v)).
Proof.
  intros Hn Hl Hm H80 g1 onSecond.
  assert (Hp1 : playing g1 s n1) by (apply (playing_loaded _ _ _ _ Hn Hl)).
  assert (Hlen : 0 < Z.of_nat (length (notes s)) - 1) by (rewrite Hn; simpl length; lia).
  assert (Hn2 : note_at (notes s) (0 + 1) = Some n2) by (rewrite Hn; reflexivity).
  split; [exact H80 | split; [| split]].
  - intros Hu.
    assert (E : step (NewSong s) v =
                {| audio := audio v; game := g1; songObject := S (songObject v) |}).
    { rewrite step_runs, new_song_deps.
      assert (Eq : gameLoop (audio (update (NewSong s) v)) (game (update (NewSong s) v)) =
                   with_hold (matchDuration g1) (game (update (NewSong s) v))).
      { rewrite with_hold_same. apply gameLoop_nopitch. exact Hu. }
      destruct (runEffect_quiet _ _ Eq) as [Hr Hs]. rewrite Hs, Hr.
      cbn [update audio game songObject]. fold g1. rewrite with_hold_same. reflexivity. }
    split; [exact E |]. intros a Ha. rewrite E, step_runs, frame_deps.
    cbn [audio]. 
    assert (Hd : sameAudio (audio v) a = false).
    { unfold sameAudio. rewrite Hu. unfold hits in Ha.
      destruct (userMidi a); [| discriminate]. cbn [sameMidi].
      rewrite andb_false_r. reflexivity. }
    rewrite Hd.
    set (v1 := update (Frame a) {| audio := audio v; game := g1;
                                   songObject := S (songObject v) |}).
    destruct (advance_runs_twice v1 s n1 n2) as [Hd1 Hr2].
    + exact Hp1.
    + subst v1. cbn [update game audio]. subst g1. cbn [loadSong gameMode].
      rewrite Hm. exact Ha.
    + subst v1. cbn [update game]. subst g1. cbn [loadSong gameMode matchDuration].
      rewrite Hm, H80. cbn. lia.
    + exact Hlen.
    + exact Hn2.
    + rewrite Hd1, Hr2. subst v1 onSecond. cbn [update game audio].
      subst g1. cbn [loadSong gameMode song currentIndex]. rewrite Hm. reflexivity.
  - intros um Hu Hmiss. rewrite step_runs, new_song_deps.
    assert (Eq : gameLoop (audio (update (NewSong s) v)) (game (update (NewSong s) v)) =
                 with_hold 64 (game (update (NewSong s) v))).
    { cbn [update audio game]. fold g1.
      rewrite (gameLoop_playing _ g1 s n1 um Hp1 Hu).
      unfold hits in Hmiss. rewrite Hu in Hmiss.
      subst g1. cbn [loadSong gameMode matchDuration]. rewrite Hm, Hmiss, H80.
      unfold accumulate. apply advance_below. cbn. rewrite Hm. cbn. lia. }
    destruct (runEffect_quiet _ _ Eq) as [Hr Hs]. rewrite Hs, Hr. reflexivity.
  - intros Hhit. rewrite step_runs, new_song_deps.
    destruct (advance_runs_twice (update (NewSong s) v) s n1 n2) as [Hd1 Hr2].
    + exact Hp1.
    + cbn [update game audio loadSong gameMode]. rewrite Hm. exact Hhit.
    + cbn [update game loadSong gameMode matchDuration]. rewrite Hm, H80. cbn. lia.
    + exact Hlen.
    + exact Hn2.
    + rewrite Hd1, Hr2. subst onSecond. cbn [update game audio loadSong gameMode
        song currentIndex]. rewrite Hm. reflexivity.
Qed.

Lemma new_song_inherits_hold_witness :
  let v := {| audio := heard 62%float 5%float; game := playingAt 1 HARD 80;
              songObject := 1 |} in
  let g1 := loadSong twoNotes (game v) in
  let onSecond (a : Audio) :=
    {| song := Some twoNotes; currentIndex := 1; gameMode := HARD;
       isListening := true; completed := false;
       matchDuration := if hits HARD noteD4 a then 16 else 0 |} in
  matchDuration g1 = 80 /\
  (userMidi (audio v) = None ->
     step (NewSong twoNotes) v =
       {| audio := audio v; game := g1; songObject := S (songObject v) |} /\
     forall a, hits HARD noteC4 a = true ->
       game (step (Frame a) (step (NewSong twoNotes) v)) = onSecond a) /\
  (forall um, userMidi (audio v) = Some um -> hits HARD noteC4 (audio v) = false ->
     game (step (NewSong twoNotes) v) = with_hold 64 g1) /\
  (hits HARD noteC4 (audio v) = true ->
     game (step (NewSong twoNotes) v) = onSecond (audio v)).
Proof.
  cbv zeta.
  apply (new_song_inherits_hold
           {| audio := heard 62%float 5%float; game := playingAt 1 HARD 80;
              songObject := 1 |} twoNotes noteC4 noteD4 []); reflexivity.
Defined.

(** Two sessions, run, from 80 ms accumulated on a D: "Change Song", then
    a song loaded.  The loading runs the effect on the stale observation
    (the D, which misses the C) and takes 80 ms down to 64; the next hit
    brings them back to 80 and does not advance.  With a frame of silence
    before, the 80 ms are kept and the first hit advances. *)
Example new_song_sessions :
  let v := {| audio := heard 62%float 5%float; game := playingAt 1 HARD 80;
              songObject := 1 |} in
  game (play [NoSong; NewSong twoNotes] v) = playingAt 0 HARD 64 /\
  game (play [NoSong; NewSong twoNotes; Frame (heard 60%float 0%float)] v) =
    playingAt 0 HARD 80 /\
  game (play [Frame (silence 5%float); NoSong; NewSong twoNotes] v) =
    playingAt 0 HARD 80 /\
  game (play [Frame (silence 5%float); NoSong; NewSong twoNotes;
              Frame (heard 60%float 0%float)] v) = playingAt 1 HARD 0.
Proof. vm_compute. repeat split. Qed.

(** X25: the effect counts changes of the observation, not frames.  A
    frame whose observation is the same as the one before runs nothing, so
    that however many identical frames on a hit follow one another, the
    accumulated time gains 16 ms once.  In Hard mode, from an accumulated
    time of 0 on a note that is not the last, six frames on a hit, each
    with an observation that differs from the one before, run the effect
    seven times: five frames bring the accumulated time to 80 ms, the
    sixth advances to the next note, and the effect runs again on the
    sixth observation against that note, which leaves 16 ms accumulated
    when the next note has the same pitch code and 0 otherwise. *)
Theorem effect_counts_changes (v : View) (s : Song) (t next : Note)
    (obs : list Audio) (a6 : Audio) :
  playing (game v) s t ->
  gameMode (game v) = HARD ->
  matchDuration (game v) = 0 ->
  length obs = 5%nat ->
  Forall (fun a => hits HARD t a = true) (obs ++ [a6]) ->
  changing (audio v) (obs ++ [a6]) = true ->
  currentIndex (game v) < Z.of_nat (length (notes s)) - 1 ->
  note_at (notes s) (currentIndex (game v) + 1) = Some next ->
  game (play (map Frame obs) v) = with_hold 80 (game v) /\
  game (play (map Frame (obs ++ [a6])) v) =
    {| song := song (game v); currentIndex := currentIndex (game v) + 1;
       gameMode := HARD; isListening := true; completed := false;
       matchDuration := if hits HARD next a6 then 16 else 0 |} /\
  (forall a n, hits HARD t a = true -> sameAudio (audio v) a = false ->
     game (play (repeat (Frame a) (S n)) v) = with_hold 16 (game v)) /\
  (forall a, sameAudio (audio v) a = true -> game (step (Frame a) v) = game v).
Proof.
  intros Hp Hm H0 Hlen Hf Hc Hi Hn.
  apply Forall_app in Hf. destruct Hf as [Hobs H6].
  inversion H6 as [|x l Ha6 _]; subst x l. clear H6.
  rewrite changing_app in Hc. apply andb_true_iff in Hc. destruct Hc as [Hc Hc6].
  apply negb_true_iff in Hc6.
  assert (E5 : play (map Frame obs) v =
               {| audio := last obs (audio v); game := with_hold 80 (game v);
                  songObject := songObject v |}).
  { rewrite (frames_hits s t obs v Hp).
    - rewrite Hlen, H0. reflexivity.
    - rewrite Hm. exact Hobs.
    - exact Hc.
    - rewrite Hlen, H0, Hm. cbn. lia. }
  split; [rewrite E5; reflexivity | split; [| split]].
  - rewrite map_app. unfold play. rewrite fold_left_app.
    fold (play (map Frame obs) v). rewrite E5. cbn [map fold_left].
    rewrite step_runs, frame_deps. cbn [audio]. rewrite Hc6.
    set (v1 := update (Frame a6) {| audio := last obs (audio v);
                                    game := with_hold 80 (game v);
                                    songObject := songObject v |}).
    destruct (advance_runs_twice v1 s t next) as [Hd1 Hr2].
    + exact Hp.
    + subst v1. cbn [update game audio with_hold gameMode]. rewrite Hm. exact Ha6.
    + subst v1. cbn [update game with_hold gameMode matchDuration]. rewrite Hm. cbn. lia.
    + exact Hi.
    + exact Hn.
    + rewrite Hd1, Hr2. subst v1.
      cbn [update game audio with_hold gameMode song currentIndex]. rewrite Hm.
      reflexivity.
  - intros a n Ha Hd.
    assert (E1 : step (Frame a) v =
                 {| audio := a; game := with_hold 16 (game v);
                    songObject := songObject v |}).
    { rewrite (frame_hit v s t a Hp Hd).
      - rewrite H0. reflexivity.
      - rewrite Hm. exact Ha.
      - rewrite H0, Hm. cbn. lia. }
    cbn [repeat play fold_left]. rewrite E1.
    induction n as [|n IH]; [reflexivity |].
    cbn [repeat fold_left]. rewrite step_runs, frame_deps. cbn [audio].
    rewrite sameAudio_refl. exact IH.
  - intros a Hs. rewrite step_runs, frame_deps, Hs. reflexivity.
Qed.

Lemma effect_counts_changes_witness :
  let v := {| audio := silence 0%float; game := playingAt 0 HARD 0;
              songObject := 1 |} in
  let obs := [heard 60%float 10%float; heard 60%float 8%float;
              heard 60%float 5%float; heard 60%float 3%float;
              heard 60%float (-1)%float] in
  let a6 := heard 60%float (-4)%float in
  game (play (map Frame obs) v) = with_hold 80 (game v) /\
  game (play (map Frame (obs ++ [a6])) v) =
    {| song := song (game v); currentIndex := currentIndex (game v) + 1;
       gameMode := HARD; isListening := true; completed := false;
       matchDuration := if hits HARD noteD4 a6 then 16 else 0 |} /\
  (forall a n, hits HARD noteC4 a = true -> sameAudio (audio v) a = false ->
     game (play (repeat (Frame a) (S n)) v) = with_hold 16 (game v)) /\
  (forall a, sameAudio (audio v) a = true -> game (step (Frame a) v) = game v).
Proof.
  cbv zeta.
  apply (effect_counts_changes
           {| audio := silence 0%float; game := playingAt 0 HARD 0; songObject := 1 |}
           twoNotes noteC4 noteD4
           [heard 60%float 10%float; heard 60%float 8%float;
            heard 60%float 5%float; heard 60%float 3%float;
            heard 60%float (-1)%float] (heard 60%float (-4)%float)).
  - repeat split.
  - reflexivity.
  - reflexivity.
  - reflexivity.
  - repeat constructor.
  - reflexivity.
  - reflexivity.
  - reflexivity.
Defined.

(** Six identical frames on a hit leave 16 ms; on a song whose first two
    notes have the same pitch code, the sixth changing frame ends with
    16 ms accumulated on the second note. *)
Example frames_sessions :
  let v := {| audio := silence 0%float; game := playingAt 0 HARD 0;
              songObject := 1 |} in
  let a := heard 60%float 10%float in
  let cc := {| title := "cc"; notes := [noteC4; noteC4] |} in
  let w := {| audio := silence 0%float;
              game := {| song := Some cc; currentIndex := 0; gameMode := HARD;
                         isListening := true; completed := false;
                         matchDuration := 0 |};
              songObject := 1 |} in
  game (play (repeat (Frame a) 6) v) = playingAt 0 HARD 16 /\
  matchDuration (game (play (map Frame
    [heard 60%float 1%float; heard 60%float 2%float; heard 60%float 3%float;
     heard 60%float 4%float; heard 60%float 5%float; heard 60%float 6%float]) w)) = 16 /\
  currentIndex (game (play (map Frame
    [heard 60%float 1%float; heard 60%float 2%float; heard 60%float 3%float;
     heard 60%float 4%float; heard 60%float 5%float; heard 60%float 6%float]) w)) = 1.
Proof. vm_compute. repeat split. Qed.

End Scheduling.

(** ** The order of binary64 numbers *)

Section FloatOrder.
Local Open Scope float_scope.

Lemma SFcompare_lt_trans (a b c : spec_float) :
  SFcompare a b = Some Lt -> SFcompare b c = Some Lt -> SFcompare a c = Some Lt.
Proof.
  destruct a as [sa | sa | | sa ma ea], b as [sb | sb | | sb mb eb],
    c as [sc | sc | | sc mc ec];
    cbn [SFcompare]; try discriminate;
    try (destruct sa; discriminate); try (destruct sb; discriminate);
    try (destruct sc; discriminate);
    try (destruct sa, sb; discriminate); try (destruct sb, sc; discriminate);
    try (destruct sa, sc; (discriminate || reflexivity));
    try (destruct sa, sb, sc; (discriminate || reflexivity)).
  change (Pos.compare_cont Eq ma mb) with (ma ?= mb)%positive.
  change (Pos.compare_cont Eq mb mc) with (mb ?= mc)%positive.
  change (Pos.compare_cont Eq ma mc) with (ma ?= mc)%positive.
  destruct sa, sb, sc; try discriminate; try reflexivity;
    destruct (Z.compare_spec ea eb), (Z.compare_spec eb ec), (Z.compare_spec ea ec);
    try discriminate; try reflexivity; try lia; subst;
    destruct (Pos.compare_spec ma mb), (Pos.compare_spec mb mc),
      (Pos.compare_spec ma mc);
    cbn [CompOpp]; try discriminate; try reflexivity; try lia.
Qed.

Lemma SFcompare_lt_irrefl (a : spec_float) : SFcompare a a <> Some Lt.
Proof.
  destruct a as [s | s | | s m e]; cbn [SFcompare]; try discriminate;
    try (destruct s; discriminate).
  change (Pos.compare_cont Eq m m) with (m ?= m)%positive.
  rewrite Z.compare_refl, Pos.compare_refl. destruct s; discriminate.
Qed.

Lemma SFltb_lt (a b : spec_float) : SFltb a b = true <-> SFcompare a b = Some Lt.
Proof.
  unfold SFltb. destruct (SFcompare a b) as [[| |]|]; split; congruence.
Qed.

Lemma ltb_trans (x y z : float) :
  (x <? y) = true -> (y <? z) = true -> (x <? z) = true.
Proof.
  rewrite !FloatAxioms.ltb_spec, !SFltb_lt. apply SFcompare_lt_trans.
Qed.

Lemma ltb_irrefl (x : float) : (x <? x) = false.
Proof.
  rewrite FloatAxioms.ltb_spec. destruct (SFltb (Prim2SF x) (Prim2SF x)) eqn:E;
    [| reflexivity].
  apply SFltb_lt in E. exfalso. exact (SFcompare_lt_irrefl _ E).
Qed.

Lemma ltb_leb (x y : float) : (x <? y) = true -> (x <=? y) = true.
Proof.
  rewrite FloatAxioms.ltb_spec, FloatAxioms.leb_spec. unfold SFltb, SFleb.
  destruct (SFcompare (Prim2SF x) (Prim2SF y)) as [[| |]|]; congruence.
Qed.

End FloatOrder.

(** ** More on the detector (audioUtils.ts, lines 34-85) *)

Section DetectorStages.
Import AudioUtils App.
Local Open Scope float_scope.

Lemma range_In (from to i : Z) : In i (range from to) <-> (from <= i < to)%Z.
Proof. unfold range. rewrite count_from_In. lia. Qed.

Lemma get_slice (arr : list float) (s e k : Z) :
  (0 <= s <= e)%Z -> (e <= Z.of_nat (length arr))%Z -> (0 <= k < e - s)%Z ->
  get (slice arr s e) k = get arr (s + k).
Proof.
  intros Hs He Hk. unfold get, slice.
  destruct (s <? 0)%Z eqn:E1; [lia |]. destruct (e <? 0)%Z eqn:E2; [lia |].
  destruct (k <? 0)%Z eqn:E3; [lia |]. destruct (s + k <? 0)%Z eqn:E4; [lia |].
  rewrite nth_error_firstn, nth_error_skipn.
  replace (Z.to_nat (Z.min s (Z.of_nat (length arr))) + Z.to_nat k)%nat
    with (Z.to_nat (s + k)) by lia.
  destruct (Nat.ltb_spec (Z.to_nat k)
              (Z.to_nat (Z.min e (Z.of_nat (length arr)) -
                         Z.min s (Z.of_nat (length arr))))); [reflexivity | lia].
Qed.

(** X8: on a buffer of two samples or more the trimmed region is a
    non-empty run of consecutive samples of the buffer: it starts in the
    first half (at [r1]), ends in the second half (before [r2], itself at
    most the last position), and so never contains the last sample. *)
Theorem trimmed_region_is_a_segment (buffer : list float) :
  (2 <= length buffer)%nat ->
  let SIZE := Z.of_nat (length buffer) in
  (0 <= r1 buffer < r2 buffer)%Z /\
  (2 * r1 buffer < SIZE <= 2 * r2 buffer)%Z /\
  (r2 buffer <= SIZE - 1)%Z /\
  Z.of_nat (length (buf2 buffer)) = (r2 buffer - r1 buffer)%Z /\
  (forall k, (0 <= k < r2 buffer - r1 buffer)%Z ->
     get (buf2 buffer) k = get buffer (r1 buffer + k)).
Proof.
  intros H2 SIZE.
  assert (Hne : buffer <> []) by (destruct buffer; simpl in *; [lia | congruence]).
  destruct (r1_bounds buffer) as [H10 H11]. specialize (H11 Hne).
  destruct (r2_bounds buffer) as [H20 H21]. fold SIZE in H11, H20, H21.
  assert (HS : (2 <= SIZE)%Z) by (subst SIZE; lia).
  repeat split; try lia.
  - unfold buf2. apply slice_length; lia.
  - intros k Hk. unfold buf2. apply get_slice; lia.
Qed.

Lemma trimmed_region_is_a_segment_witness :
  let buffer := [0.5; 0.1; 0.5; 0.5; 0.1; 0.5] in
  (0 <= r1 buffer < r2 buffer)%Z /\
  (2 * r1 buffer < 6 <= 2 * r2 buffer)%Z /\
  (r2 buffer <= 6 - 1)%Z /\
  Z.of_nat (length (buf2 buffer)) = (r2 buffer - r1 buffer)%Z /\
  (forall k, (0 <= k < r2 buffer - r1 buffer)%Z ->
     get (buf2 buffer) k = get buffer (r1 buffer + k)).
Proof.
  cbv zeta.
  apply (trimmed_region_is_a_segment [0.5; 0.1; 0.5; 0.5; 0.1; 0.5]).
  simpl. lia.
Defined.

(** A position of the buffer whose sample is below the threshold. *)
Definition quietAt (buffer : list float) (i : Z) : bool :=
  Math_abs (num (get buffer i)) <? thres.

Lemma r2_last_quiet (buffer : list float) :
  let SIZE := Z.of_nat (length buffer) in
  (quietAt buffer (r2 buffer) = true /\ (SIZE < 2 * r2 buffer)%Z /\
   forall p, (r2 buffer < p <= SIZE - 1)%Z -> quietAt buffer p = false) \/
  (r2 buffer = (SIZE - 1)%Z /\
   forall p, (SIZE < 2 * p)%Z -> (p <= SIZE - 1)%Z -> quietAt buffer p = false).
Proof.
  intros SIZE. unfold r2. fold SIZE.
  set (test := fun i => Math_abs (num (get buffer (SIZE - i))) <? thres).
  destruct (first_index test (half_loop 1 SIZE)) as [i|] eqn:E.
  - left. destruct (first_index_found _ _ _ E) as (before & after & Hl & Hq & _).
    assert (Hin : In i (half_loop 1 SIZE)).
    { rewrite Hl. apply in_or_app. right. left. reflexivity. }
    apply half_loop_In in Hin; [| lia].
    repeat split; [exact Hq | lia |].
    intros p Hp. unfold half_loop, range in E.
    pose proof (first_index_least _ _ _ _ _ E (SIZE - p)%Z) as Hleast.
    unfold test in Hleast. replace (SIZE - (SIZE - p))%Z with p in Hleast by lia.
    apply Hleast; [lia |]. apply Z.ltb_lt. lia.
  - right. split; [reflexivity |]. intros p Hp1 Hp2.
    apply first_index_none in E. rewrite Forall_forall in E.
    specialize (E (SIZE - p)%Z). unfold test in E.
    replace (SIZE - (SIZE - p))%Z with p in E by lia.
    apply E. apply half_loop_In; lia.
Qed.

(** X9: what the two trimming loops compute.  [r1] is the first position
    of the first half of the buffer whose sample is below 0.2 in absolute
    value, and 0 when there is none; [r2] is the last position of the
    second half (the middle position excluded) whose sample is below 0.2,
    and the last position when there is none. *)
Theorem trim_bounds_are_quiet_samples (buffer : list float) :
  let SIZE := Z.of_nat (length buffer) in
  ((quietAt buffer (r1 buffer) = true /\ (2 * r1 buffer < SIZE)%Z /\
    forall j, (0 <= j < r1 buffer)%Z -> quietAt buffer j = false) \/
   (r1 buffer = 0%Z /\
    forall j, (0 <= j)%Z -> (2 * j < SIZE)%Z -> quietAt buffer j = false)) /\
  ((quietAt buffer (r2 buffer) = true /\ (SIZE < 2 * r2 buffer)%Z /\
    forall p, (r2 buffer < p <= SIZE - 1)%Z -> quietAt buffer p = false) \/
   (r2 buffer = (SIZE - 1)%Z /\
    forall p, (SIZE < 2 * p)%Z -> (p <= SIZE - 1)%Z -> quietAt buffer p = false)).
Proof.
  intros SIZE. split; [apply r1_first_quiet | apply r2_last_quiet].
Qed.

Lemma peak_unchanged (c : list float) : forall counters acc,
  (forall i, In i counters -> gt (get c i) (Some (fst acc)) = false) ->
  fold_left (peak_step c) counters acc = acc.
Proof.
  induction counters as [|i rest IH]; intros acc H; simpl; [reflexivity |].
  unfold peak_step at 2. rewrite (H i) by (left; reflexivity).
  apply IH. intros j Hj. apply H. right. exact Hj.
Qed.

Lemma gt_trans_false (x : option float) (old new : float) :
  gt x (Some old) = false -> new = old \/ (old <? new) = true ->
  gt x (Some new) = false.
Proof.
  intros Hx [-> | Hlt]; [exact Hx |].
  destruct x as [v|]; [| reflexivity]. simpl in *.
  destruct (new <? v) eqn:E; [| reflexivity].
  rewrite (ltb_trans old new v Hlt E) in Hx. discriminate.
Qed.

(** The peak search over the counters [counters], from the pair [acc]. *)
Lemma peak_fold (c : list float) : forall counters acc,
  let r := fold_left (peak_step c) counters acc in
  (fst r = fst acc \/ (fst acc <? fst r) = true) /\
  (forall i, In i counters -> gt (get c i) (Some (fst r)) = false) /\
  (r = acc \/
   (In (snd r) counters /\ get c (snd r) = Some (fst r) /\
    (fst acc <? fst r) = true)).
Proof.
  induction counters as [|i rest IH]; intros acc; cbn zeta.
  - simpl. repeat split; auto. intros i [].
  - simpl fold_left. specialize (IH (peak_step c acc i)). cbn zeta in IH.
    set (r := fold_left (peak_step c) rest (peak_step c acc i)) in *.
    destruct IH as (Hmono & Hall & Hwhere).
    assert (Hstep : gt (get c i) (Some (fst (peak_step c acc i))) = false /\
                    (peak_step c acc i = acc \/
                     (snd (peak_step c acc i) = i /\
                      get c i = Some (fst (peak_step c acc i)) /\
                      (fst acc <? fst (peak_step c acc i)) = true))).
    { unfold peak_step. destruct (gt (get c i) (Some (fst acc))) eqn:E.
      - destruct (get c i) as [v|] eqn:Ev; [| discriminate]. simpl in *.
        split; [apply ltb_irrefl | right; repeat split; exact E].
      - split; [exact E | left; reflexivity]. }
    destruct Hstep as (Shere & Swhere).
    assert (Smono : fst (peak_step c acc i) = fst acc \/
                    (fst acc <? fst (peak_step c acc i)) = true).
    { destruct Swhere as [-> | (_ & _ & S1)]; auto. }
    assert (Hm : fst r = fst acc \/ (fst acc <? fst r) = true).
    { destruct Smono as [S1 | S1], Hmono as [H1 | H1].
      - left. congruence.
      - right. rewrite <- S1. exact H1.
      - right. rewrite H1. exact S1.
      - right. exact (ltb_trans _ _ _ S1 H1). }
    split; [exact Hm | split].
    + intros j [<- | Hj]; [| apply Hall, Hj].
      apply (gt_trans_false _ _ _ Shere). destruct Hmono; auto.
    + destruct Hwhere as [Hr | (Hin & Hget & Hlt)].
      * destruct Swhere as [Sacc | (Si & Sget & Slt)].
        -- left. congruence.
        -- right. rewrite Hr. repeat split.
           ++ left. symmetry. exact Si.
           ++ rewrite Si. exact Sget.
           ++ exact Slt.
      * right. repeat split; [right; exact Hin | exact Hget |].
        destruct Smono as [S1 | S1].
        -- rewrite <- S1. exact Hlt.
        -- exact (ltb_trans _ _ _ S1 Hlt).
Qed.

(** X10: the peak search of lines 64-72 returns a maximum.  Either no lag
    from [d] on has a correlation above -1 and [maxpos] stays -1, or
    [maxpos] is a lag between [d] and the end of [c], [maxval] is the
    correlation there and is above -1; in both cases no lag from [d] on has
    a correlation above [maxval]. *)
Theorem peak_is_a_maximum (c : list float) (d : Z) :
  let maxval := fst (peak c d) in
  let maxpos := snd (peak c d) in
  ((maxpos = (-1)%Z /\ maxval = -1) \/
   ((d <= maxpos < Z.of_nat (length c))%Z /\
    get c maxpos = Some maxval /\ (-1 <? maxval) = true)) /\
  (forall i, (d <= i < Z.of_nat (length c))%Z ->
     gt (get c i) (Some maxval) = false).
Proof.
  cbv zeta. unfold peak.
  destruct (peak_fold c (range d (Z.of_nat (length c))) (-1, (-1)%Z))
    as (_ & Hall & Hwhere).
  split.
  - destruct Hwhere as [-> | (Hin & Hget & Hlt)]; [left; split; reflexivity |].
    right. apply range_In in Hin. repeat split; try lia; assumption.
  - intros i Hi. apply Hall, range_In, Hi.
Qed.

Lemma fold_products_zero (l : list (float * float)) :
  Forall (fun p => p = (0, 0)) l ->
  fold_left (fun acc p => acc + fst p * snd p) l 0 = 0.
Proof.
  induction 1 as [|p l Hp Hl IH]; simpl; [reflexivity |].
  rewrite Hp. simpl. exact IH.
Qed.

Lemma In_skipn_keeps {A} (x : A) (i : nat) : forall l, In x (skipn i l) -> In x l.
Proof.
  induction i as [|i IH]; intros l H; [exact H |].
  destruct l as [|y l]; [exact H |]. right. apply IH, H.
Qed.

Lemma acf_at_zeros (n i : nat) : acf_at (repeat 0 n) i = 0.
Proof.
  unfold acf_at. apply fold_products_zero. apply Forall_forall.
  intros [x y] Hin.
  pose proof (in_combine_l _ _ _ _ Hin) as Hx.
  pose proof (in_combine_r _ _ _ _ Hin) as Hy.
  apply repeat_spec in Hx. apply In_skipn_keeps, repeat_spec in Hy.
  congruence.
Qed.

Lemma acf_zeros (n : nat) : acf (repeat 0 n) = repeat 0 n.
Proof.
  unfold acf. rewrite repeat_length.
  assert (H : forall start len, map (acf_at (repeat 0 n)) (seq start len) = repeat 0 len).
  { intros start len. revert start. induction len as [|len IH]; intros start;
      simpl; [reflexivity |]. rewrite acf_at_zeros, IH. reflexivity. }
  apply H.
Qed.

Lemma get_zeros (n : nat) (i : Z) :
  get (repeat 0 n) i = Some 0 \/ get (repeat 0 n) i = None.
Proof.
  unfold get. destruct (i <? 0)%Z; [right; reflexivity |].
  destruct (nth_error (repeat 0 n) (Z.to_nat i)) as [v|] eqn:E; [| right; reflexivity].
  left. apply nth_error_In, repeat_spec in E. congruence.
Qed.

(** X11: a silent trimmed region divides by zero.  When the frame is loud
    enough to pass the noise floor but every sample of the trimmed region
    is 0 (the energy sits in the samples trimmed away), all correlations
    are 0, the walk and the peak search stay at lag 0, and the result is
    [sampleRate / 0]. *)
Theorem silent_region_divides_by_zero (buffer : list float) (sampleRate : float)
    (n : nat) :
  (rms buffer <? 0.01) = false ->
  buf2 buffer = repeat 0 (S n) ->
  acf (buf2 buffer) = repeat 0 (S n) /\
  decline (S (S n)) (repeat 0 (S n)) 0 = Some 0%Z /\
  peak (repeat 0 (S n)) 0 = (0, 0%Z) /\
  autoCorrelate buffer sampleRate = Some (sampleRate / 0).
Proof.
  intros Hloud Hb.
  assert (Hc : acf (buf2 buffer) = repeat 0 (S n)) by (rewrite Hb; apply acf_zeros).
  assert (Hd : decline (S (S n)) (repeat 0 (S n)) 0 = Some 0%Z).
  { assert (Hgt : gt (get (repeat 0 (S n)) 0) (get (repeat 0 (S n)) (0 + 1)) = false)
      by (destruct (get_zeros (S n) (0 + 1)) as [-> | ->]; reflexivity).
    change (decline (S (S n)) (repeat 0 (S n)) 0)
      with (if gt (get (repeat 0 (S n)) 0) (get (repeat 0 (S n)) (0 + 1))
            then decline (S n) (repeat 0 (S n)) (0 + 1) else Some 0%Z).
    rewrite Hgt. reflexivity. }
  assert (Hp : peak (repeat 0 (S n)) 0 = (0, 0%Z)).
  { unfold peak, range. rewrite repeat_length.
    replace (Z.to_nat (Z.of_nat (S n) - 0)) with (S n) by lia.
    cbn [count_from fold_left]. unfold peak_step at 2. cbn.
    change (0 :: repeat 0 n) with (repeat 0 (S n)).
    apply peak_unchanged. intros i _. cbn [fst].
    destruct (get_zeros (S n) i) as [-> | ->]; reflexivity. }
  repeat split; try assumption.
  unfold autoCorrelate, correlate. rewrite Hloud, Hc, repeat_length, Hd, Hp.
  cbn [snd]. unfold interpolate.
  assert (H0 : get (repeat 0 (S n)) 0 = Some 0) by reflexivity.
  assert (Hm : get (repeat 0 (S n)) (0 - 1) = None) by reflexivity.
  rewrite H0, Hm.
  destruct (get_zeros (S n) (0 + 1)) as [-> | ->]; reflexivity.
Qed.

Lemma silent_region_divides_by_zero_witness :
  acf (buf2 [0; 0; 0; 1]) = repeat 0 3 /\
  decline 4 (repeat 0 3) 0 = Some 0%Z /\
  peak (repeat 0 3) 0 = (0, 0%Z) /\
  autoCorrelate [0; 0; 0; 1] 44100 = Some (44100 / 0).
Proof.
  apply (silent_region_divides_by_zero [0; 0; 0; 1] 44100 2); reflexivity.
Defined.

(** X12: a frame without a usable pitch is not seen by the game.  When
    the detector's result is not strictly between 80 and 1200 (in
    particular for a frame below the noise floor), the frame clears
    [currentFreq] and [userMidi], keeps the previous [centsOff], and the
    game-loop effect run on that observation leaves the game state as it
    is: nothing decays while the singer is silent. *)
Theorem unusable_frame_changes_nothing (Math_log : float -> float)
    (buffer : list float) (sampleRate frequency : float) (a : Audio) :
  autoCorrelate buffer sampleRate = Some frequency ->
  inVocalRange frequency = false ->
  frame Math_log buffer sampleRate a =
    Some {| currentFreq := 0; centsOff := centsOff a; userMidi := None |} /\
  (forall a' g, frame Math_log buffer sampleRate a = Some a' -> gameLoop a' g = g) /\
  (forall observations g,
     Forall (fun o => userMidi o = None) observations -> run observations g = g).
Proof.
  intros Hf Hr.
  assert (E : frame Math_log buffer sampleRate a =
              Some {| currentFreq := 0; centsOff := centsOff a; userMidi := None |}).
  { unfold frame. rewrite Hf. unfold detectPitch. rewrite Hr. reflexivity. }
  split; [exact E | split].
  - intros a' g Ha'. rewrite E in Ha'. injection Ha' as <-.
    apply gameLoop_nopitch. reflexivity.
  - induction observations as [|o obs IH]; intros g Hall; simpl; [reflexivity |].
    inversion Hall as [|o' obs' Ho Hobs]; subst.
    rewrite (gameLoop_nopitch o g Ho). apply IH, Hobs.
Qed.

Lemma unusable_frame_changes_nothing_witness :
  let a := heard 60 12 in
  frame (fun x => x) (repeat 0 2048) 44100 a =
    Some {| currentFreq := 0; centsOff := 12; userMidi := None |} /\
  (forall a' g, frame (fun x => x) (repeat 0 2048) 44100 a = Some a' ->
                gameLoop a' g = g) /\
  (forall observations g,
     Forall (fun o => userMidi o = None) observations -> run observations g = g).
Proof.
  cbv zeta.
  apply (unusable_frame_changes_nothing (fun x => x) (repeat 0 2048) 44100 (-1)
           (heard 60 12)).
  - vm_compute. reflexivity.
  - reflexivity.
Defined.

End DetectorStages.

(** ** Note names: audioUtils.ts (getNoteString) and the MusicXML parser
       (src/unnamed/part_000, lines 100-166) *)

Module Names.
Local Open Scope string_scope.
Local Open Scope Z_scope.

(** audioUtils.ts, line 1. *)
Definition noteStrings : list string :=
  ["C"; "C#"; "D"; "D#"; "E"; "F"; "F#"; "G"; "G#"; "A"; "A#"; "B"].

(** An integer in a template literal: its decimal digits, with a minus sign
    when it is negative. *)
Definition numberString (z : Z) : string := NilZero.string_of_int (Z.to_int z).

(** [noteStrings[i]] in a template literal: a position out of range gives
    [undefined], printed as such. *)
Definition nameAt (i : Z) : string :=
  match (if i <? 0 then None else nth_error noteStrings (Z.to_nat i)) with
  | Some name => name
  | None => "undefined"
  end.

(** audioUtils.ts, lines 12-16, on an integer [midi].  [%] is the remainder
    of the division that truncates, [Math.floor (midi / 12)] the quotient
    of the division that rounds down. *)
Definition getNoteString (midi : Z) : string :=
  let noteIndex := Z.rem midi 12 in
  let octave := midi / 12 - 1 in
  nameAt noteIndex ++ numberString octave.









End Names.

(** ** src/components/PitchVisualizer.tsx: PitchVisualizer (lines 1-79) and
       GameCanvas (lines 79-300) *)

Module Components.
Import JS Types.
Local Open Scope Z_scope.

(** GameCanvas, lines 89-92. *)
Definition NOTE_SPACING : Z := 120.
Definition STAFF_HEIGHT : Z := 200.




(** GameCanvas, line 193: [for (let s = 0; s >= steps; s -= 2)], with
    fuel. *)
Fixpoint ledgerBelow (fuel : nat) (s steps : Z) : option (list Z) :=
  match fuel with
  | O => None
  | S k =>
      if s >=? steps
      then match ledgerBelow k (s - 2) steps with
           | Some rest => Some (s :: rest)
           | None => None
           end
      else Some []
  end.

(** GameCanvas, line 196: [for (let s = 12; s <= steps; s += 2)], with
    fuel. *)
Fixpoint ledgerAbove (fuel : nat) (s steps : Z) : option (list Z) :=
  match fuel with
  | O => None
  | S k =>
      if s <=? steps
      then match ledgerAbove k (s + 2) steps with
           | Some rest => Some (s :: rest)
           | None => None
           end
      else Some []
  end.

(** GameCanvas, lines 191-197: the ledger lines of a note [steps] above
    middle C's line ([None] for [NaN], which passes neither test). *)
Definition ledgerLines (fuel : nat) (steps : option Z) : option (list Z) :=
  match steps with
  | None => Some []
  | Some st =>
      match (if st <=? 0 then ledgerBelow fuel 0 st else Some []),
            (if st >=? 12 then ledgerAbove fuel 12 st else Some []) with
      | Some below, Some above => Some (below ++ above)
      | _, _ => None
      end
  end.

(** [Math.min] of two numbers: [NaN] if one of them is, and [-0] below [+0]. *)
Definition Math_min (x y : float) : float :=
  if is_nan x || is_nan y then nan
  else if (x <? y)%float then x
  else if (y <? x)%float then y
  else if (x =? 0)%float && (0 <? 1 / x)%float then y
  else x.

(** PitchVisualizer, lines 22-23. *)
Definition clampedCents (centsOff : float) : float :=
  Math_max (-100) (Math_min 100 centsOff).

(** PitchVisualizer, line 24. *)
Definition percent (centsOff : float) : float :=
  ((clampedCents centsOff + 100) / (100 * 2) * 100)%float.

(** PitchVisualizer, line 29. *)
Definition tolerance (mode : GameMode) : float :=
  match mode with EASY => 50%float | HARD => 20%float end.

(** PitchVisualizer, line 32. *)
Definition isMatch (mode : GameMode) (centsOff : float) (userMidi : option float)
    : bool :=
  (Math_abs centsOff <=? tolerance mode)%float &&
  match userMidi with Some _ => true | None => false end.

End Components.

(** ** The staff (GameCanvas) *)

Section Staff.
Import Components.
Local Open Scope Z_scope.















Lemma ledgerBelow_spec (steps : Z) : forall fuel s,
  Z.max 0 (s - steps + 2) < 2 * Z.of_nat fuel ->
  exists l, ledgerBelow fuel s steps = Some l /\
    forall x, In x l <-> exists k, 0 <= k /\ x = s - 2 * k /\ steps <= x.
Proof.
  induction fuel as [|fuel IH]; intros s Hf; [lia |].
  cbn [ledgerBelow]. destruct (s >=? steps) eqn:E.
  - apply Z.geb_le in E. destruct (IH (s - 2)) as (l & -> & Hl); [lia |].
    exists (s :: l). split; [reflexivity |]. intros x. cbn [In]. rewrite Hl. split.
    + intros [<- | (k & Hk & -> & Hx)].
      * exists 0. lia.
      * exists (k + 1). lia.
    + intros (k & Hk & -> & Hx).
      destruct (Z.eq_dec k 0) as [-> | Hne]; [left; lia |].
      right. exists (k - 1). lia.
  - exists []. split; [reflexivity |]. intros x. cbn [In]. split; [tauto |].
    intros (k & Hk & -> & Hx).
    assert (s < steps) by (destruct (Z.geb_spec s steps); [discriminate | lia]). lia.
Qed.

Lemma ledgerAbove_spec (steps : Z) : forall fuel s,
  Z.max 0 (steps - s + 2) < 2 * Z.of_nat fuel ->
  exists l, ledgerAbove fuel s steps = Some l /\
    forall x, In x l <-> exists k, 0 <= k /\ x = s + 2 * k /\ x <= steps.
Proof.
  induction fuel as [|fuel IH]; intros s Hf; [lia |].
  cbn [ledgerAbove]. destruct (s <=? steps) eqn:E.
  - apply Z.leb_le in E. destruct (IH (s + 2)) as (l & -> & Hl); [lia |].
    exists (s :: l). split; [reflexivity |]. intros x. cbn [In]. rewrite Hl. split.
    + intros [<- | (k & Hk & -> & Hx)].
      * exists 0. lia.
      * exists (k + 1). lia.
    + intros (k & Hk & -> & Hx).
      destruct (Z.eq_dec k 0) as [-> | Hne]; [left; lia |].
      right. exists (k - 1). lia.
  - exists []. split; [reflexivity |]. intros x. cbn [In]. split; [tauto |].
    intros (k & Hk & -> & Hx). apply Z.leb_gt in E. lia.
Qed.

(** X19: the ledger lines of a note.  Both loops end (with fuel above half
    the distance), and the lines drawn are exactly the even steps from 0
    down to the note when it is at step 0 or below, and from 12 up to the
    note when it is at step 12 or above; a note strictly between step 0 and
    step 12 gets none. *)
Theorem ledger_lines (fuel : nat) (steps : Z) :
  Z.abs steps + 4 < 2 * Z.of_nat fuel ->
  exists l,
    ledgerLines fuel (Some steps) = Some l /\
    (forall x, In x l <->
       (exists k, 0 <= k /\ x = - 2 * k /\ steps <= x) \/
       (exists k, 0 <= k /\ x = 12 + 2 * k /\ x <= steps)) /\
    (0 < steps < 12 -> l = []).
Proof.
  intros Hf. unfold ledgerLines.
  destruct (steps <=? 0) eqn:E0; destruct (steps >=? 12) eqn:E12.
  - apply Z.leb_le in E0. apply Z.geb_le in E12. lia.
  - apply Z.leb_le in E0.
    destruct (ledgerBelow_spec steps fuel 0) as (l & -> & Hl); [lia |].
    exists (l ++ []). split; [reflexivity | split; [| lia]].
    intros x. rewrite app_nil_r, Hl. split.
    + intros (k & Hk & -> & Hx). left. exists k. lia.
    + intros [(k & Hk & -> & Hx) | (k & Hk & -> & Hx)].
      * exists k. lia.
      * assert (steps < 12) by (destruct (Z.geb_spec steps 12); [discriminate | lia]).
        lia.
  - apply Z.geb_le in E12.
    destruct (ledgerAbove_spec steps fuel 12) as (l & -> & Hl); [lia |].
    exists ([] ++ l). split; [reflexivity | split; [| lia]].
    intros x. cbn [app]. rewrite Hl. split.
    + intros (k & Hk & -> & Hx). right. exists k. lia.
    + intros [(k & Hk & -> & Hx) | (k & Hk & -> & Hx)].
      * apply Z.leb_gt in E0. lia.
      * exists k. lia.
  - exists ([] ++ []). split; [reflexivity | split; [| reflexivity]].
    apply Z.leb_gt in E0.
    assert (steps < 12) by (destruct (Z.geb_spec steps 12); [discriminate | lia]).
    intros x. change (In x ([] ++ [])) with False. split; [intros Hin; destruct Hin |].
    intros [(k & Hk & -> & Hx) | (k & Hk & -> & Hx)]; lia.
Qed.

Lemma ledger_lines_witness :
  exists l,
    ledgerLines 5 (Some (-3)) = Some l /\
    (forall x, In x l <->
       (exists k, 0 <= k /\ x = - 2 * k /\ -3 <= x) \/
       (exists k, 0 <= k /\ x = 12 + 2 * k /\ x <= -3)) /\
    (0 < -3 < 12 -> l = []).
Proof.
  apply (ledger_lines 5 (-3)). cbn. lia.
Defined.

End Staff.

(** ** The tuning display (PitchVisualizer) *)

Section Display.
Import App Components.
Local Open Scope float_scope.

Lemma SFcompare_eq_lt (a b c : spec_float) :
  SFcompare a b = Some Eq -> SFcompare b c = Some Lt -> SFcompare a c = Some Lt.
Proof.
  destruct a as [sa | sa | | sa ma ea], b as [sb | sb | | sb mb eb],
    c as [sc | sc | | sc mc ec];
    cbn [SFcompare]; try discriminate;
    try (destruct sa; discriminate); try (destruct sb; discriminate);
    try (destruct sc; discriminate);
    try (destruct sa, sb; discriminate); try (destruct sb, sc; discriminate);
    try (destruct sa, sc; (discriminate || reflexivity));
    try (destruct sa, sb, sc; (discriminate || reflexivity));
    try (intros _ H; exact H).
  change (Pos.compare_cont Eq ma mb) with (ma ?= mb)%positive.
  change (Pos.compare_cont Eq mb mc) with (mb ?= mc)%positive.
  change (Pos.compare_cont Eq ma mc) with (ma ?= mc)%positive.
  destruct sa, sb, sc; try discriminate; try reflexivity;
    destruct (Z.compare_spec ea eb), (Z.compare_spec eb ec), (Z.compare_spec ea ec);
    try discriminate; try reflexivity; try lia; subst;
    destruct (Pos.compare_spec ma mb), (Pos.compare_spec mb mc),
      (Pos.compare_spec ma mc);
    cbn [CompOpp]; try discriminate; try reflexivity; try lia.
Qed.

Lemma leb_cases (x y : float) :
  (x <=? y) = true ->
  SFcompare (Prim2SF x) (Prim2SF y) = Some Lt \/
  SFcompare (Prim2SF x) (Prim2SF y) = Some Eq.
Proof.
  rewrite FloatAxioms.leb_spec. unfold SFleb.
  destruct (SFcompare (Prim2SF x) (Prim2SF y)) as [[| |]|]; auto; discriminate.
Qed.

Lemma leb_ltb_trans (x y z : float) :
  (x <=? y) = true -> (y <? z) = true -> (x <? z) = true.
Proof.
  intros Hxy Hyz. apply leb_cases in Hxy.
  rewrite FloatAxioms.ltb_spec in *. apply SFltb_lt in Hyz. apply SFltb_lt.
  destruct Hxy as [Hlt | Heq].
  - exact (SFcompare_lt_trans _ _ _ Hlt Hyz).
  - exact (SFcompare_eq_lt _ _ _ Heq Hyz).
Qed.

Lemma leb_not_ltb (x y : float) : (x <=? y) = true -> (y <? x) = false.
Proof.
  intros H. destruct (y <? x) eqn:E; [| reflexivity].
  pose proof (leb_ltb_trans x y x H E) as Hxx. rewrite ltb_irrefl in Hxx.
  discriminate.
Qed.

Lemma ltb_not_nan (x y : float) : (x <? y) = true -> is_nan x = false /\ is_nan y = false.
Proof.
  unfold is_nan. rewrite FloatAxioms.ltb_spec, !FloatAxioms.eqb_spec.
  unfold SFltb, SFeqb.
  destruct (Prim2SF x) as [sx | sx | | sx mx ex], (Prim2SF y) as [sy | sy | | sy my ey];
    cbn [SFcompare]; try discriminate; intros _;
    try (destruct sx); try (destruct sy); split; try reflexivity;
    change (Pos.compare_cont Eq ?a ?a) with (a ?= a)%positive;
    rewrite ?Z.compare_refl, ?Pos.compare_refl; reflexivity.
Qed.

Lemma leb_not_nan (x y : float) : (x <=? y) = true -> is_nan x = false /\ is_nan y = false.
Proof.
  unfold is_nan. rewrite FloatAxioms.leb_spec, !FloatAxioms.eqb_spec.
  unfold SFleb, SFeqb.
  destruct (Prim2SF x) as [sx | sx | | sx mx ex], (Prim2SF y) as [sy | sy | | sy my ey];
    cbn [SFcompare]; try discriminate; intros _;
    try (destruct sx); try (destruct sy); split; try reflexivity;
    change (Pos.compare_cont Eq ?a ?a) with (a ?= a)%positive;
    rewrite ?Z.compare_refl, ?Pos.compare_refl; reflexivity.
Qed.

(** X20: the display and the game do not use the same test.  With a
    detected pitch on the target note, a cursor shown as a match is always
    counted as a hit by the game loop; in Easy mode the converse holds too,
    but in Hard mode the display allows 20 cents and the game 25, so that at
    22 cents the game counts a hit that the display does not show; and the
    display ignores the note: on a wrong note at 0 cents it shows a match
    that the game does not count. *)
Theorem display_and_game_tests (mode : GameMode) (targetNote : Note)
    (um centsOff : float) :
  ((um =? midi targetNote) = true ->
   isMatch mode centsOff (Some um) = true ->
   onTarget mode targetNote um centsOff = true) /\
  (onTarget EASY targetNote um centsOff = true ->
   isMatch EASY centsOff (Some um) = true) /\
  ((um =? midi targetNote) = true ->
   onTarget HARD targetNote um 22 = true /\ isMatch HARD 22 (Some um) = false) /\
  ((um =? midi targetNote) = false ->
   isMatch mode 0 (Some um) = true /\ onTarget mode targetNote um 0 = false) /\
  isMatch mode centsOff None = false.
Proof.
  unfold isMatch, onTarget, Components.tolerance, App.tolerance.
  split; [| split; [| split; [| split]]].
  - intros Hn Hm. rewrite Hn. rewrite andb_true_r in Hm. destruct mode; cbn [andb].
    + exact Hm.
    + apply ltb_leb. apply (leb_ltb_trans _ 20 25 Hm). reflexivity.
  - intros H. apply andb_prop in H. destruct H as [_ H]. rewrite H. reflexivity.
  - intros Hn. rewrite Hn. split; reflexivity.
  - intros Hn. rewrite Hn. destruct mode; split; reflexivity.
  - apply andb_false_r.
Qed.

(** X21: the cursor stays on the scale.  For a tuning error that is a
    number, the clamped value lies between -100 and 100: it is the error
    itself strictly inside that range, 100 (cursor at 100 percent) from 100
    cents up and -100 (cursor at 0 percent) from -100 cents down; a [NaN]
    error stays [NaN]. *)
Theorem cursor_is_clamped (centsOff : float) :
  (is_nan centsOff = false ->
   (-100 <=? clampedCents centsOff) = true /\
   (clampedCents centsOff <=? 100) = true) /\
  ((-100 <? centsOff) = true -> (centsOff <? 100) = true ->
   clampedCents centsOff = centsOff) /\
  ((100 <=? centsOff) = true ->
   clampedCents centsOff = 100 /\ percent centsOff = 100) /\
  ((centsOff <=? -100) = true ->
   clampedCents centsOff = -100 /\ percent centsOff = 0) /\
  (is_nan centsOff = true -> is_nan (clampedCents centsOff) = true).
Proof.
  assert (Hin : (-100 <? centsOff) = true -> (centsOff <? 100) = true ->
                clampedCents centsOff = centsOff).
  { intros Hlo Hhi. destruct (ltb_not_nan _ _ Hhi) as [Hn _].
    unfold clampedCents, Math_min, Math_max. rewrite Hn. cbn [is_nan orb].
    change (is_nan 100) with false. cbn [orb].
    rewrite (leb_not_ltb _ _ (ltb_leb _ _ Hhi)), Hhi.
    change (is_nan (-100)) with false. rewrite Hn. cbn [orb].
    rewrite Hlo. reflexivity. }
  assert (Hup : (100 <=? centsOff) = true -> clampedCents centsOff = 100).
  { intros Hge. destruct (leb_not_nan _ _ Hge) as [_ Hn].
    unfold clampedCents, Math_min. rewrite Hn.
    change (is_nan 100) with false. cbn [orb].
    rewrite (leb_not_ltb _ _ Hge).
    destruct (100 <? centsOff); reflexivity. }
  assert (Hdown : (centsOff <=? -100) = true -> clampedCents centsOff = -100).
  { intros Hle. destruct (leb_not_nan _ _ Hle) as [Hn _].
    assert (Hlt : (centsOff <? 100) = true)
      by (apply (leb_ltb_trans _ (-100) 100 Hle); reflexivity).
    unfold clampedCents, Math_min, Math_max. rewrite Hn.
    change (is_nan 100) with false. cbn [orb].
    rewrite (leb_not_ltb _ _ (ltb_leb _ _ Hlt)), Hlt.
    change (is_nan (-100)) with false. rewrite Hn. cbn [orb].
    rewrite (leb_not_ltb _ _ Hle).
    destruct (centsOff <? -100); reflexivity. }
  split; [| split; [exact Hin | split; [| split]]].
  - intros Hn.
    destruct (100 <? centsOff) eqn:E1.
    + rewrite (Hup (ltb_leb _ _ E1)). split; reflexivity.
    + destruct (centsOff <? 100) eqn:E2.
      * destruct (-100 <? centsOff) eqn:E3.
        -- rewrite (Hin eq_refl eq_refl). split; [apply ltb_leb, E3 | apply ltb_leb, E2].
        -- unfold clampedCents, Math_min, Math_max. rewrite Hn.
           change (is_nan 100) with false. cbn [orb]. rewrite E1, E2.
           change (is_nan (-100)) with false. rewrite Hn. cbn [orb]. rewrite E3.
           destruct (centsOff <? -100); split; reflexivity.
      * unfold clampedCents, Math_min. rewrite Hn.
        change (is_nan 100) with false. cbn [orb]. rewrite E1, E2.
        split; reflexivity.
  - intros Hge. pose proof (Hup Hge) as E. split; [exact E |].
    unfold percent. rewrite E. reflexivity.
  - intros Hle. pose proof (Hdown Hle) as E. split; [exact E |].
    unfold percent. rewrite E. reflexivity.
  - intros Hn. unfold clampedCents, Math_min. rewrite Hn.
    change (is_nan 100) with false. reflexivity.
Qed.

End Display.

(** ** Note names (getNoteString and the MusicXML parser) *)

Section NoteNames.
Import Names.
Local Open Scope string_scope.
Local Open Scope Z_scope.












Example getNoteString_samples :
  map getNoteString [60; 69; 61; 0; 127; -1; -12] =
  ["C4"; "A4"; "C#4"; "C-1"; "G9"; "undefined-2"; "C-2"].
Proof. reflexivity. Qed.

End NoteNames.

(** ** The song generator (src/unnamed/part_000, lines 23-100): what
       [generateSong] does with the parsed answer *)

Module Generator.
Import JS Types Names.
Local Open Scope string_scope.
Local Open Scope Z_scope.


Section WithPow.

(** [Math.pow]. *)
Variable Math_pow : float -> float -> float.

(** audioUtils.ts, lines 8-10, on numbers. *)
Definition getFrequencyFromMidi (midi : float) : float :=
  (440 * Math_pow 2 ((midi - 69) / 12))%float.




End WithPow.
End Generator.

Section GeneratedSongs.
Import Names Generator.
Local Open Scope string_scope.
Local Open Scope Z_scope.

Variable Math_pow : float -> float -> float.




End GeneratedSongs.
